(** * MAC control component and PDU-session-resource-setup routine

    A shallow embedding of [lib/mac/mac_ctrl/mac_ctrl_component.cc] (the UE
    registry of the MAC control component, its reverse RNTI index and the
    deferred UE removal) and of the PDU-session-resource-setup routine that
    the unit test [pdu_session_resource_setup_test] drives.

    Unsigned 16-bit quantities ([du_ue_index_t], [rnti_t], [du_cell_index_t])
    are natural numbers: the only arithmetic the component performs on them
    is [%] and comparison, neither of which wraps. *)

From stdpp Require Import base option list strings.

(** ** Outcomes of a call

    [srsran_assert] and [srsran_sanity_check] terminate the process when their
    condition is false; an access outside a [std::array] is undefined.  Both
    are surfaced as [Fatal], so that "the call returns" is a statement about
    [Ok]. *)

Inductive fatal : Set :=
| Invalid_RNTI                  (* srsran_assert(crnti != INVALID_RNTI, ...) *)
| Invalid_ue_index              (* srsran_assert(ue_index < MAX_NOF_UES, ...) *)
| Unexpectedly_removed          (* srsran_sanity_check(ue_db.contains(ue_index), ...) *)
| Out_of_bounds.                (* operator[] outside a std::array *)

Inductive outcome (A : Type) : Type :=
| Ok (a : A)
| Fatal (f : fatal).

Arguments Ok {A} a.
Arguments Fatal {A} f.

#[global] Instance outcome_ret : MRet outcome := fun A a => Ok a.
#[global] Instance outcome_bind : MBind outcome :=
  fun A B k m => match m with Ok a => k a | Fatal f => Fatal f end.

Definition srsran_assert (cond : bool) (f : fatal) : outcome unit :=
  if cond then Ok tt else Fatal f.

Definition is_fatal {A} (m : outcome A) : bool :=
  match m with Ok _ => false | Fatal _ => true end.

(** ** Constants of the DU

    [MAX_NOF_UES] and [INVALID_RNTI] are declared in headers that are not
    among the sources; the component only relies on them being fixed
    numbers. *)

Class du_constants : Set := {
  MAX_NOF_UES : nat;
  INVALID_RNTI : nat
}.

(** ** Messages exchanged with the MAC configuration notifier *)

Record mac_ue_create_request_message : Set := {
  create_ue_index : nat;
  create_crnti : nat;
  create_cell_index : nat
}.

Record mac_ue_delete_request_message : Set := {
  delete_ue_index : nat;
  delete_rnti : nat
}.

Record mac_ue_reconfiguration_request_message : Set := {
  reconf_ue_index : nat;
  reconf_crnti : nat
}.

Record mac_ue_create_request_response_message : Set := {
  create_resp_ue_index : nat;
  create_resp_cell_index : nat;
  create_resp_result : bool
}.

Record mac_ue_delete_response_message : Set := {
  delete_resp_ue_index : nat;
  delete_resp_result : bool
}.

Record mac_ue_reconfiguration_response_message : Set := {
  reconf_resp_ue_index : nat;
  reconf_resp_result : bool
}.

(** Calls received by [cfg.cfg_notifier], the result sink. *)
Inductive notification : Set :=
| on_ue_create_request_complete (resp : mac_ue_create_request_response_message)
| on_ue_delete_complete (resp : mac_ue_delete_response_message)
| on_ue_reconfiguration_complete (resp : mac_ue_reconfiguration_response_message).

(** Procedures that the component schedules on a UE control loop. *)
Inductive procedure : Set :=
| mac_ue_create_request_procedure (msg : mac_ue_create_request_message)
| mac_ue_delete_procedure (msg : mac_ue_delete_request_message)
| mac_ue_reconfiguration_procedure (msg : mac_ue_reconfiguration_request_message).

Inductive procedure_name : Set :=
| name_ue_create | name_ue_delete | name_ue_reconfiguration.

Inductive failure_cause : Set :=
| Invalid_parameters            (* "Invalid parameters." *)
| Inexistent_ueId.              (* "Inexistent ueId." *)

(** Lines written to [logger]. *)
Inductive log_entry : Set :=
| log_proc_failure (ue_index rnti : nat) (proc : procedure_name) (cause : failure_cause)
| warning_failed_to_find (ue_index : nat)      (* "Failed to find ueId={}" *)
| debug_scheduling_deletion (ue_index : nat)   (* "Scheduling ueId={} deletion" *)
| info_removing (ue_index : nat).              (* "Removing ueId={}" *)

(** ** Control loops *)

(** Modelled from the spec: [async_task_sequencer], whose header is not among
    the sources.  Section 4.2 describes a control loop as an ordered queue of
    pending tasks and at most one task that is executing. *)
Record async_task_sequencer (T : Type) : Type := {
  running : option T;
  queue : list T
}.

Arguments running {T} _.
Arguments queue {T} _.

Definition idle_loop {T} : async_task_sequencer T :=
  {| running := None; queue := [] |}.

(** Modelled from the spec: [async_task_sequencer::schedule] (section 4.2)
    starts the task at once when nothing is running and appends it to the
    FIFO queue otherwise. *)
Definition schedule {T} (t : T) (loop : async_task_sequencer T) : async_task_sequencer T :=
  match running loop with
  | None => {| running := Some t; queue := queue loop |}
  | Some _ => {| running := running loop; queue := queue loop ++ [t] |}
  end.

(** The loop has neither a running nor a queued task. *)
Definition drained {T} (loop : async_task_sequencer T) : bool :=
  match running loop, queue loop with
  | None, [] => true
  | _, _ => false
  end.

(** Modelled from the spec: [async_task_sequencer::request_stop] (section
    4.2) returns a suspension that resolves once the queue is empty and no
    task is executing. *)
Definition request_stop_resolved {T} (loop : async_task_sequencer T) : bool :=
  drained loop.

(** Modelled from the spec: when the running task of an
    [async_task_sequencer] finishes, its successor in the queue, if any, is
    dequeued and run (section 2). *)
Definition task_complete {T} (loop : async_task_sequencer T) : async_task_sequencer T :=
  match queue loop with
  | [] => {| running := None; queue := [] |}
  | t :: q => {| running := Some t; queue := q |}
  end.

(** ** The UE registry *)

Record mac_ue_context : Set := {
  du_ue_index : nat;
  rnti : nat;
  pcell_idx : nat
}.

Record ue_element : Set := {
  ue_ctx : mac_ue_context;
  ctrl_loop : async_task_sequencer procedure
}.

(** Modelled from the spec: [slot_array<ue_element, MAX_NOF_UES>], whose
    header is not among the sources; section 2 describes the registry as a
    fixed-capacity sparse map from entity index to entity state.  It is a
    list of [MAX_NOF_UES] optional slots. *)
Abbreviation slot_array T := (list (option T)) (only parsing).

(** Modelled from the spec: [slot_array::contains]; an index beyond the
    capacity is not contained. *)
Definition contains {T} (db : slot_array T) (idx : nat) : bool :=
  match db !! idx with
  | Some (Some _) => true
  | _ => false
  end.

(** Modelled from the spec: [slot_array::emplace]. *)
Definition emplace {T} (db : slot_array T) (idx : nat) (x : T) : slot_array T :=
  <[idx := Some x]> db.

(** Modelled from the spec: [slot_array::erase]. *)
Definition erase {T} (db : slot_array T) (idx : nat) : slot_array T :=
  <[idx := None]> db.

(** The closure that [remove_ue] hands to [main_ctrl_loop]; it only captures
    [ue_index]. *)
Definition removal_closure : Set := nat.

Record mac_ctrl_component : Type := {
  ue_db : slot_array ue_element;
  rnti_to_ue_index_map : list nat;
  main_ctrl_loop : async_task_sequencer removal_closure;
  cfg_notifier : list notification;     (* calls made so far, oldest first *)
  logger : list log_entry               (* lines written so far, oldest first *)
}.

Definition set_ue_db (db : slot_array ue_element) (s : mac_ctrl_component) :=
  {| ue_db := db;
     rnti_to_ue_index_map := rnti_to_ue_index_map s;
     main_ctrl_loop := main_ctrl_loop s;
     cfg_notifier := cfg_notifier s;
     logger := logger s |}.

Definition set_rnti_to_ue_index_map (m : list nat) (s : mac_ctrl_component) :=
  {| ue_db := ue_db s;
     rnti_to_ue_index_map := m;
     main_ctrl_loop := main_ctrl_loop s;
     cfg_notifier := cfg_notifier s;
     logger := logger s |}.

Definition set_main_ctrl_loop (l : async_task_sequencer removal_closure) (s : mac_ctrl_component) :=
  {| ue_db := ue_db s;
     rnti_to_ue_index_map := rnti_to_ue_index_map s;
     main_ctrl_loop := l;
     cfg_notifier := cfg_notifier s;
     logger := logger s |}.

Definition notify (n : notification) (s : mac_ctrl_component) :=
  {| ue_db := ue_db s;
     rnti_to_ue_index_map := rnti_to_ue_index_map s;
     main_ctrl_loop := main_ctrl_loop s;
     cfg_notifier := cfg_notifier s ++ [n];
     logger := logger s |}.

Definition log (e : log_entry) (s : mac_ctrl_component) :=
  {| ue_db := ue_db s;
     rnti_to_ue_index_map := rnti_to_ue_index_map s;
     main_ctrl_loop := main_ctrl_loop s;
     cfg_notifier := cfg_notifier s;
     logger := logger s ++ [e] |}.

(** [rnti_to_ue_index_map[i]]. *)
Definition array_get (a : list nat) (i : nat) : outcome nat :=
  match a !! i with
  | Some v => Ok v
  | None => Fatal Out_of_bounds
  end.

(** [ue_db[ue_index].ctrl_loop.schedule<...>(...)] through the pointer that
    [add_ue] returned or the reference taken after [contains]. *)
Definition schedule_on_ue (p : procedure) (idx : nat) (db : slot_array ue_element) : slot_array ue_element :=
  match db !! idx with
  | Some (Some u) =>
      <[idx := Some {| ue_ctx := ue_ctx u; ctrl_loop := schedule p (ctrl_loop u) |}]> db
  | _ => db
  end.

(** Modelled from the spec: [slot_array::operator[]] as an optional value,
    [None] when the slot is empty or [idx] is beyond the capacity. *)
Definition slot_get {T} (db : slot_array T) (idx : nat) : option T :=
  match db !! idx with
  | Some (Some x) => Some x
  | _ => None
  end.

Inductive coro_status : Set :=
| Suspended                     (* stopped at CORO_AWAIT *)
| Returned.                     (* reached CORO_RETURN *)

Section component.
Context `{!du_constants}.

(** The constructor: [std::fill(..., MAX_NOF_UES)] over the reverse index,
    an empty [ue_db] and idle loops. *)
Definition mac_ctrl_component_init : mac_ctrl_component :=
  {| ue_db := replicate MAX_NOF_UES None;
     rnti_to_ue_index_map := replicate MAX_NOF_UES MAX_NOF_UES;
     main_ctrl_loop := idle_loop;
     cfg_notifier := [];
     logger := [] |}.

(** [mac_ctrl_component::add_ue].  The returned pointer [&ue_db[ue_index]] is
    the index of the slot it points to. *)
Definition add_ue (s : mac_ctrl_component) (ue_index crnti cell_index : nat)
  : outcome (mac_ctrl_component * option nat) :=
  _ ← srsran_assert (negb (crnti =? INVALID_RNTI)) Invalid_RNTI;
  _ ← srsran_assert (ue_index <? MAX_NOF_UES) Invalid_ue_index;
  slot ← array_get (rnti_to_ue_index_map s) (crnti mod MAX_NOF_UES);
  if slot <? MAX_NOF_UES then
    (* rnti already exists *)
    Ok (s, None)
  else if contains (ue_db s) ue_index then
    (* UE already existed with same ue_index *)
    Ok (s, None)
  else
    let u := {| ue_ctx := {| du_ue_index := ue_index; rnti := crnti; pcell_idx := cell_index |};
                ctrl_loop := idle_loop |} in
    let s1 := set_ue_db (emplace (ue_db s) ue_index u) s in
    let s2 := set_rnti_to_ue_index_map
                (<[crnti mod MAX_NOF_UES := ue_index]> (rnti_to_ue_index_map s1)) s1 in
    Ok (s2, Some ue_index).

(** [mac_ctrl_component::ue_create_request]. *)
Definition ue_create_request (s : mac_ctrl_component) (msg : mac_ue_create_request_message)
  : outcome mac_ctrl_component :=
  r ← add_ue s (create_ue_index msg) (create_crnti msg) (create_cell_index msg);
  match r with
  | (s1, None) =>
      let s2 := log (log_proc_failure (create_ue_index msg) (create_crnti msg)
                       name_ue_create Invalid_parameters) s1 in
      let resp := {| create_resp_ue_index := create_ue_index msg;
                     create_resp_cell_index := create_cell_index msg;
                     create_resp_result := false |} in
      Ok (notify (on_ue_create_request_complete resp) s2)
  | (s1, Some u) =>
      Ok (set_ue_db (schedule_on_ue (mac_ue_create_request_procedure msg) u (ue_db s1)) s1)
  end.

(** [mac_ctrl_component::ue_delete_request]. *)
Definition ue_delete_request (s : mac_ctrl_component) (msg : mac_ue_delete_request_message)
  : outcome mac_ctrl_component :=
  if negb (contains (ue_db s) (delete_ue_index msg)) then
    let s1 := log (log_proc_failure (delete_ue_index msg) (delete_rnti msg)
                     name_ue_delete Inexistent_ueId) s in
    let resp := {| delete_resp_ue_index := delete_ue_index msg;
                   delete_resp_result := false |} in
    Ok (notify (on_ue_delete_complete resp) s1)
  else
    Ok (set_ue_db (schedule_on_ue (mac_ue_delete_procedure msg) (delete_ue_index msg) (ue_db s)) s).

(** [mac_ctrl_component::ue_reconfiguration_request]. *)
Definition ue_reconfiguration_request (s : mac_ctrl_component)
    (msg : mac_ue_reconfiguration_request_message) : outcome mac_ctrl_component :=
  if negb (contains (ue_db s) (reconf_ue_index msg)) then
    let s1 := log (log_proc_failure (reconf_ue_index msg) (reconf_crnti msg)
                     name_ue_reconfiguration Inexistent_ueId) s in
    let resp := {| reconf_resp_ue_index := reconf_ue_index msg;
                   reconf_resp_result := false |} in
    Ok (notify (on_ue_reconfiguration_complete resp) s1)
  else
    Ok (set_ue_db (schedule_on_ue (mac_ue_reconfiguration_procedure msg)
                     (reconf_ue_index msg) (ue_db s)) s).

(** The tail of the closure of [remove_ue], after [CORO_AWAIT]:
    [logger.info("Removing ueId={}")] and [ue_db.erase(ue_index)]. *)
Definition removal_closure_finish (s : mac_ctrl_component) (ue_index : nat) : mac_ctrl_component :=
  let s1 := log (info_removing ue_index) s in
  set_ue_db (erase (ue_db s1) ue_index) s1.

(** The closure of [remove_ue] from [CORO_BEGIN]: the sanity check, then the
    await on the control loop of the UE; when that suspension is already
    resolved the closure runs on to its end. *)
Definition removal_closure_begin (s : mac_ctrl_component) (ue_index : nat)
  : outcome (mac_ctrl_component * coro_status) :=
  _ ← srsran_assert (contains (ue_db s) ue_index) Unexpectedly_removed;
  match slot_get (ue_db s) ue_index with
  | Some u =>
      if request_stop_resolved (ctrl_loop u)
      then Ok (removal_closure_finish s ue_index, Returned)
      else Ok (s, Suspended)
  | None => Fatal Unexpectedly_removed
  end.

(** Modelled from the spec: the loop of [async_task_sequencer] (section
    4.2) for [main_ctrl_loop]: with nothing running it takes closures from
    its queue in order, each running up to its first suspension, until one of
    them suspends. *)
Fixpoint main_ctrl_loop_run (s : mac_ctrl_component) (q : list removal_closure)
  : outcome mac_ctrl_component :=
  match q with
  | [] => Ok (set_main_ctrl_loop idle_loop s)
  | ue_index :: q' =>
      r ← removal_closure_begin s ue_index;
      match r with
      | (s1, Suspended) =>
          Ok (set_main_ctrl_loop {| running := Some ue_index; queue := q' |} s1)
      | (s1, Returned) => main_ctrl_loop_run s1 q'
      end
  end.

(** [main_ctrl_loop.schedule(closure)]: the closure is appended when another
    one is suspended in the loop and started at once otherwise. *)
Definition main_ctrl_loop_schedule (s : mac_ctrl_component) (c : removal_closure)
  : outcome mac_ctrl_component :=
  match running (main_ctrl_loop s) with
  | Some _ => Ok (set_main_ctrl_loop (schedule c (main_ctrl_loop s)) s)
  | None => main_ctrl_loop_run s (queue (main_ctrl_loop s) ++ [c])
  end.

(** [mac_ctrl_component::remove_ue]. *)
Definition remove_ue (s : mac_ctrl_component) (ue_index : nat) : outcome mac_ctrl_component :=
  _ ← srsran_assert (ue_index <? MAX_NOF_UES) Invalid_ue_index;
  if negb (contains (ue_db s) ue_index) then
    Ok (log (warning_failed_to_find ue_index) s)
  else
    let s1 := log (debug_scheduling_deletion ue_index) s in
    main_ctrl_loop_schedule s1 ue_index.

(** Modelled from the spec: the closure suspended in the main control loop is
    resumed when the suspension of [request_stop] it awaits has resolved
    (sections 4.2 and 4.5); until then nothing happens. *)
Definition main_ctrl_loop_resume (s : mac_ctrl_component) : outcome mac_ctrl_component :=
  match running (main_ctrl_loop s) with
  | None => Ok s
  | Some ue_index =>
      match slot_get (ue_db s) ue_index with
      | Some u =>
          if request_stop_resolved (ctrl_loop u)
          then main_ctrl_loop_run (removal_closure_finish s ue_index) (queue (main_ctrl_loop s))
          else Ok s
      | None => Fatal Unexpectedly_removed
      end
  end.

(** Modelled from the spec: the procedure running on the control loop of UE
    [ue_index] finishes and the loop moves on to its next task (section 2).
    What the procedure itself does is outside the component. *)
Definition procedure_complete (s : mac_ctrl_component) (ue_index : nat) : mac_ctrl_component :=
  match slot_get (ue_db s) ue_index with
  | Some u =>
      match running (ctrl_loop u) with
      | Some _ =>
          set_ue_db (<[ue_index := Some {| ue_ctx := ue_ctx u;
                                           ctrl_loop := task_complete (ctrl_loop u) |}]> (ue_db s)) s
      | None => s
      end
  | None => s
  end.

(** [mac_ctrl_component::find_ue]. *)
Definition find_ue (s : mac_ctrl_component) (ue_index : nat) : outcome (option mac_ue_context) :=
  _ ← srsran_assert (ue_index <? MAX_NOF_UES) Invalid_ue_index;
  Ok (if contains (ue_db s) ue_index then ue_ctx <$> slot_get (ue_db s) ue_index else None).

(** [mac_ctrl_component::find_by_rnti]. *)
Definition find_by_rnti (s : mac_ctrl_component) (rnti : nat) : outcome (option mac_ue_context) :=
  _ ← srsran_assert (negb (rnti =? INVALID_RNTI)) Invalid_RNTI;
  ue_index ← array_get (rnti_to_ue_index_map s) (rnti mod MAX_NOF_UES);
  if ue_index =? MAX_NOF_UES then Ok None else find_ue s ue_index.

(** ** Executions of the component

    The procedures themselves run outside this component; what reaches it
    from them is a call of [remove_ue] and the end of the procedure, and the
    main control loop resumes the closure it holds. *)

Inductive event : Set :=
| ev_ue_create_request (msg : mac_ue_create_request_message)
| ev_ue_delete_request (msg : mac_ue_delete_request_message)
| ev_ue_reconfiguration_request (msg : mac_ue_reconfiguration_request_message)
| ev_remove_ue (ue_index : nat)
| ev_procedure_complete (ue_index : nat)
| ev_main_ctrl_loop_resume.

Definition step (s : mac_ctrl_component) (ev : event) : outcome mac_ctrl_component :=
  match ev with
  | ev_ue_create_request msg => ue_create_request s msg
  | ev_ue_delete_request msg => ue_delete_request s msg
  | ev_ue_reconfiguration_request msg => ue_reconfiguration_request s msg
  | ev_remove_ue ue_index => remove_ue s ue_index
  | ev_procedure_complete ue_index => Ok (procedure_complete s ue_index)
  | ev_main_ctrl_loop_resume => main_ctrl_loop_resume s
  end.

(** Runs a list of events from [s]; stops at the first fatal outcome. *)
Fixpoint run (s : mac_ctrl_component) (evs : list event) : outcome mac_ctrl_component :=
  match evs with
  | [] => Ok s
  | ev :: evs' => s1 ← step s ev; run s1 evs'
  end.

Inductive reachable : mac_ctrl_component -> Prop :=
| reachable_init : reachable mac_ctrl_component_init
| reachable_step s ev s' : reachable s -> step s ev = Ok s' -> reachable s'.

(** The shape every reachable registry has: both tables have [MAX_NOF_UES]
    entries and the reverse index holds entity indexes or the
    [MAX_NOF_UES] mark. *)
Definition well_formed (s : mac_ctrl_component) : Prop :=
  length (ue_db s) = MAX_NOF_UES /\
  length (rnti_to_ue_index_map s) = MAX_NOF_UES /\
  (forall i v, rnti_to_ue_index_map s !! i = Some v -> v <= MAX_NOF_UES).

(** Every entity of the registry sits at the index its context records and
    is the one the reverse index reaches from its radio identifier. *)
Definition index_consistent (s : mac_ctrl_component) : Prop :=
  forall i u, slot_get (ue_db s) i = Some u ->
    du_ue_index (ue_ctx u) = i /\
    rnti (ue_ctx u) <> INVALID_RNTI /\
    rnti_to_ue_index_map s !! (rnti (ue_ctx u) mod MAX_NOF_UES) = Some i.

(** No slot of the reverse index is left over from an erased entity: a
    mapped slot holds the index of an entity of the registry whose radio
    identifier belongs to that slot. *)
Definition no_stale_slot (s : mac_ctrl_component) : Prop :=
  forall k v, rnti_to_ue_index_map s !! k = Some v -> v < MAX_NOF_UES ->
    exists u, slot_get (ue_db s) v = Some u /\ rnti (ue_ctx u) mod MAX_NOF_UES = k.

(** The reverse index sends [rnti] to an entity that is in the registry. *)
Definition maps_to_live_ue (s : mac_ctrl_component) (rnti : nat) : Prop :=
  exists ue_index,
    rnti_to_ue_index_map s !! (rnti mod MAX_NOF_UES) = Some ue_index /\
    contains (ue_db s) ue_index = true.

(** The state the component is in after [evs], starting from the
    constructor (the constructed state itself if some call was fatal). *)
Definition state_after (evs : list event) : mac_ctrl_component :=
  match run mac_ctrl_component_init evs with
  | Ok s => s
  | Fatal _ => mac_ctrl_component_init
  end.

End component.

(** [s'] holds no entity that [s] does not hold, with the same context. *)
Definition entities_within (s' s : mac_ctrl_component) : Prop :=
  forall i u', slot_get (ue_db s') i = Some u' ->
    exists u, slot_get (ue_db s) i = Some u /\ ue_ctx u' = ue_ctx u.

(** Some entity of the registry was created with radio identifier [r]. *)
Definition created_with (s : mac_ctrl_component) (r : nat) : bool :=
  existsb (fun slot => match slot with
                       | Some u => rnti (ue_ctx u) =? r
                       | None => false
                       end) (ue_db s).

(** A capacity and an invalid identifier at which the component is
    evaluated below; the theorems hold for any. *)
Definition example_constants : du_constants :=
  {| MAX_NOF_UES := 1024; INVALID_RNTI := 0 |}.

(** ** The PDU-session-resource-setup routine *)

Record cu_cp_pdu_session_resource_setup_request : Set := {
  cu_cp_ue_id : nat;
  pdu_session_res_setup_items : list nat         (* PDU session ids *)
}.

Record cu_cp_pdu_session_resource_setup_response : Set := {
  pdu_session_res_setup_response_items : list nat;
  pdu_session_res_failed_to_setup_items : list nat
}.

(** The requests the routine sends to its collaborators. *)
Inductive collaborator_call : Set :=
| on_bearer_context_setup_request
| on_ue_context_modification_request
| on_bearer_context_modification_request
| on_rrc_reconfiguration_request.

(** The await point at which the routine is suspended. *)
Inductive routine_stage : Set :=
| await_bearer_context_setup
| await_ue_context_modification
| await_bearer_context_modification
| await_rrc_reconfiguration.

(** [async_task<cu_cp_pdu_session_resource_setup_response>]. *)
Inductive async_task : Set :=
| task_suspended (stage : routine_stage)
| task_ready (resp : cu_cp_pdu_session_resource_setup_response).

Record routine : Set := {
  request : cu_cp_pdu_session_resource_setup_request;
  t : async_task;
  calls : list collaborator_call       (* requests issued so far, oldest first *)
}.

Definition ready (tk : async_task) : bool :=
  match tk with task_ready _ => true | task_suspended _ => false end.

Definition get (tk : async_task) : option cu_cp_pdu_session_resource_setup_response :=
  match tk with task_ready resp => Some resp | task_suspended _ => None end.

(** Modelled from the spec: the routine itself
    ([start_pdu_session_resource_setup_routine]) is not among the sources;
    only its unit test is.  Section 4.3: four ordered stages, each a request
    to a collaborator; a rejected stage aborts with every requested
    sub-resource in the failed set; only when all four succeed is each
    requested sub-resource placed in the succeeded set. *)
Definition handle_pdu_session_resource_setup_result
    (req : cu_cp_pdu_session_resource_setup_request) (success : bool)
  : cu_cp_pdu_session_resource_setup_response :=
  if success then
    {| pdu_session_res_setup_response_items := pdu_session_res_setup_items req;
       pdu_session_res_failed_to_setup_items := [] |}
  else
    {| pdu_session_res_setup_response_items := [];
       pdu_session_res_failed_to_setup_items := pdu_session_res_setup_items req |}.

(** Modelled from the spec: launching the routine.  An empty request
    short-circuits to a result that is ready at once, with both sets empty and
    no collaborator called; otherwise stage 1 is requested and the routine
    suspends. *)
Definition launch (req : cu_cp_pdu_session_resource_setup_request) : routine :=
  match pdu_session_res_setup_items req with
  | [] =>
      {| request := req;
         t := task_ready {| pdu_session_res_setup_response_items := [];
                            pdu_session_res_failed_to_setup_items := [] |};
         calls := [] |}
  | _ :: _ =>
      {| request := req;
         t := task_suspended await_bearer_context_setup;
         calls := [on_bearer_context_setup_request] |}
  end.

(** Modelled from the spec: what follows each stage when it succeeded. *)
Definition next_stage (stage : routine_stage) : option (routine_stage * collaborator_call) :=
  match stage with
  | await_bearer_context_setup =>
      Some (await_ue_context_modification, on_ue_context_modification_request)
  | await_ue_context_modification =>
      Some (await_bearer_context_modification, on_bearer_context_modification_request)
  | await_bearer_context_modification =>
      Some (await_rrc_reconfiguration, on_rrc_reconfiguration_request)
  | await_rrc_reconfiguration => None
  end.

(** Modelled from the spec: the collaborator answers the stage the routine is
    suspended at with [success]. *)
Definition resume (r : routine) (success : bool) : routine :=
  match t r with
  | task_ready _ => r
  | task_suspended stage =>
      if success then
        match next_stage stage with
        | Some (stage', call) =>
            {| request := request r; t := task_suspended stage'; calls := calls r ++ [call] |}
        | None =>
            {| request := request r;
               t := task_ready (handle_pdu_session_resource_setup_result (request r) true);
               calls := calls r |}
        end
      else
        {| request := request r;
           t := task_ready (handle_pdu_session_resource_setup_result (request r) false);
           calls := calls r |}
  end.

(** The outcomes the test fixture sets on its dummy notifiers. *)
Record notifier_outcomes : Set := {
  bearer_context_setup_outcome : bool;
  ue_context_modification_outcome : bool;
  bearer_context_modification_outcome : bool;
  rrc_reconfiguration_outcome : bool
}.

Definition notifier_reply (o : notifier_outcomes) (stage : routine_stage) : bool :=
  match stage with
  | await_bearer_context_setup => bearer_context_setup_outcome o
  | await_ue_context_modification => ue_context_modification_outcome o
  | await_bearer_context_modification => bearer_context_modification_outcome o
  | await_rrc_reconfiguration => rrc_reconfiguration_outcome o
  end.

(** Modelled from the spec: the dummy notifiers of the fixture are not among
    the sources; in the scenarios of section 8 the outcome set for a stage is
    the answer the routine receives, and the task is ready when
    [start_procedure] returns.  The launched task thus runs on through its
    await points; [fuel] bounds the number of answers. *)
Fixpoint drive (fuel : nat) (o : notifier_outcomes) (r : routine) : routine :=
  match fuel with
  | 0 => r
  | S fuel' =>
      match t r with
      | task_ready _ => r
      | task_suspended stage => drive fuel' o (resume r (notifier_reply o stage))
      end
  end.

(** [pdu_session_resource_setup_test::start_procedure]. *)
Definition start_procedure (msg : cu_cp_pdu_session_resource_setup_request)
    (bearer_context_setup_outcome ue_context_modification_outcome
     bearer_context_modification_outcome rrc_reconfiguration_outcome : bool) : routine :=
  let o := {| bearer_context_setup_outcome := bearer_context_setup_outcome;
              ue_context_modification_outcome := ue_context_modification_outcome;
              bearer_context_modification_outcome := bearer_context_modification_outcome;
              rrc_reconfiguration_outcome := rrc_reconfiguration_outcome |} in
  drive 4 o (launch msg).

(** [pdu_session_resource_setup_test::was_pdu_session_resource_setup_successful]. *)
Definition was_pdu_session_resource_setup_successful (tk : async_task) : bool :=
  if negb (ready tk) then false
  else
    match get tk with
    | Some resp =>
        if 0 <? length (pdu_session_res_failed_to_setup_items resp) then false
        else 0 <? length (pdu_session_res_setup_response_items resp)
    | None => false
    end.

(** ** Observations on the component *)

(** The tasks of a control loop in the order they execute: the running one,
    then the queue. *)
Definition tasks {T} (loop : async_task_sequencer T) : list T :=
  option_list (running loop) ++ queue loop.

(** The [result] field of the response a notification carries. *)
Definition notification_result (n : notification) : bool :=
  match n with
  | on_ue_create_request_complete resp => create_resp_result resp
  | on_ue_delete_complete resp => delete_resp_result resp
  | on_ue_reconfiguration_complete resp => reconf_resp_result resp
  end.

(** A control loop that runs nothing has nothing queued. *)
Definition loop_sound {T} (loop : async_task_sequencer T) : Prop :=
  running loop = None -> queue loop = [].

(** The request that creates UE 0 with radio identifier 70 in cell 0, and the
    entity it registers, before and after its create procedure has
    finished. *)
Definition create0 : event :=
  ev_ue_create_request {| create_ue_index := 0; create_crnti := 70; create_cell_index := 0 |}.

Definition ue0_created : ue_element :=
  {| ue_ctx := {| du_ue_index := 0; rnti := 70; pcell_idx := 0 |};
     ctrl_loop :=
       {| running := Some (mac_ue_create_request_procedure
                             {| create_ue_index := 0; create_crnti := 70;
                                create_cell_index := 0 |});
          queue := [] |} |}.

Definition ue0_idle : ue_element :=
  {| ue_ctx := {| du_ue_index := 0; rnti := 70; pcell_idx := 0 |};
     ctrl_loop := idle_loop |}.

(** ** RLC configuration ([rlc_config.h]) *)

(** [uint16_t], [uint32_t] and [int] values are integers; a conversion to an
    unsigned type reduces modulo its range. *)
Definition to_uint16 (x : Z) : Z := x mod 2 ^ 16.
Definition to_uint32 (x : Z) : Z := x mod 2 ^ 32.

(** [a << n] on [int]: undefined for a shift count outside [0, 32) and for a
    result that the unsigned type cannot hold; otherwise the result, read as
    a two's complement [int]. *)
Definition shl_int (a n : Z) : option Z :=
  if (0 <=? n)%Z && (n <? 32)%Z && (0 <=? a)%Z && (Z.shiftl a n <? 2 ^ 32)%Z
  then Some ((Z.shiftl a n + 2 ^ 31) mod 2 ^ 32 - 2 ^ 31)%Z
  else None.

(** What the enumerations of [rlc_config.h] share: [to_number] and
    [to_string] are overloaded on them. *)
Class ToNumber (A : Type) := to_number : A -> Z.
Class ToString (A : Type) := to_string : A -> option string.

Inductive rlc_mode : Set :=
| rlc_mode_tm | rlc_mode_um_bidir | rlc_mode_um_unidir_ul | rlc_mode_um_unidir_dl | rlc_mode_am.

(** [static_cast<unsigned>(mode)]: the enumerators are numbered from 0. *)
Definition rlc_mode_value (mode : rlc_mode) : Z :=
  match mode with
  | rlc_mode_tm => 0
  | rlc_mode_um_bidir => 1
  | rlc_mode_um_unidir_ul => 2
  | rlc_mode_um_unidir_dl => 3
  | rlc_mode_am => 4
  end.

(** [options[i]]: a read outside the table is undefined. *)
Definition table_get (options : list string) (i : Z) : option string :=
  if (i <? 0)%Z then None else options !! Z.to_nat i.

#[global] Instance rlc_mode_to_string : ToString rlc_mode := fun mode =>
  let options := ["TM"; "UM Bi-dir"; "UM Uni-dir-UL"; "UM Uni-dir-DL"; "AM"]%string in
  table_get options (rlc_mode_value mode).

Inductive rlc_um_sn_size : Set := um_size6bits | um_size12bits.

#[global] Instance rlc_um_sn_size_to_number : ToNumber rlc_um_sn_size := fun sn_size =>
  match sn_size with um_size6bits => 6 | um_size12bits => 12 end%Z.

Inductive rlc_am_sn_size : Set := am_size12bits | am_size18bits.

#[global] Instance rlc_am_sn_size_to_number : ToNumber rlc_am_sn_size := fun sn_size =>
  match sn_size with am_size12bits => 12 | am_size18bits => 18 end%Z.

(** [cardinality]: [(1 << sn_size)], converted to [uint32_t]. *)
Definition cardinality (sn_size : Z) : option Z :=
  to_uint32 <$> shl_int 1 sn_size.

(** [window_size]: [cardinality(sn_size - 1)]; the difference is computed on
    [int] and converted to the [uint16_t] parameter. *)
Definition window_size (sn_size : Z) : option Z :=
  cardinality (to_uint16 (sn_size - 1)).

Inductive rlc_dc_field : Set := dc_control | dc_data.

#[global] Instance rlc_dc_field_to_number : ToNumber rlc_dc_field := fun dc =>
  match dc with dc_control => 0 | dc_data => 1 end%Z.

#[global] Instance rlc_dc_field_to_string : ToString rlc_dc_field := fun dc =>
  let options := ["Control PDU"; "Data PDU"]%string in
  table_get options (to_number dc).

Inductive rlc_si_field : Set :=
| si_full_sdu | si_first_segment | si_last_segment | si_neither_first_nor_last_segment.

#[global] Instance rlc_si_field_to_number : ToNumber rlc_si_field := fun si_field =>
  match si_field with
  | si_full_sdu => 0
  | si_first_segment => 1
  | si_last_segment => 2
  | si_neither_first_nor_last_segment => 3
  end%Z.

#[global] Instance rlc_si_field_to_string : ToString rlc_si_field := fun si =>
  let options := ["full"; "first"; "last"; "middle"]%string in
  table_get options (to_number si).

Inductive rlc_control_pdu_type : Set := status_pdu.

#[global] Instance rlc_control_pdu_type_to_number : ToNumber rlc_control_pdu_type := fun type =>
  match type with status_pdu => 0 end%Z.

#[global] Instance rlc_control_pdu_type_to_string : ToString rlc_control_pdu_type := fun cpt =>
  let options := ["Control PDU"]%string in
  table_get options (to_number cpt).

(** * Properties *)

(** ** The PDU-session-resource-setup routine *)

Lemma start_procedure_ready msg o1 o2 o3 o4 :
  ready (t (start_procedure msg o1 o2 o3 o4)) = true.
Proof.
  unfold start_procedure, launch.
  destruct (pdu_session_res_setup_items msg); [reflexivity|].
  destruct o1, o2, o3, o4; reflexivity.
Qed.

Lemma handle_result_success_sets req :
  pdu_session_res_setup_items req <> [] ->
  was_pdu_session_resource_setup_successful
    (task_ready (handle_pdu_session_resource_setup_result req true)) = true.
Proof.
  unfold was_pdu_session_resource_setup_successful. simpl.
  destruct (pdu_session_res_setup_items req); [congruence | reflexivity].
Qed.

Lemma handle_result_failure_sets req :
  pdu_session_res_setup_items req <> [] ->
  was_pdu_session_resource_setup_successful
    (task_ready (handle_pdu_session_resource_setup_result req false)) = false.
Proof.
  unfold was_pdu_session_resource_setup_successful. simpl.
  destruct (pdu_session_res_setup_items req); [congruence | reflexivity].
Qed.

(** C1.  For a request with at least one PDU session, the routine driven by
    the fixture ends ready; it is reported successful exactly when the four
    stage outcomes (bearer-context setup, UE-context modification,
    bearer-context modification, RRC reconfiguration) are all true, and then
    the failed set is empty and the succeeded set is not; the collaborators
    are called in stage order and none after the first false outcome. *)
Theorem pdu_session_setup_successful_iff_all_stages
    (msg : cu_cp_pdu_session_resource_setup_request) (o1 o2 o3 o4 : bool) :
  pdu_session_res_setup_items msg <> [] ->
  let r := start_procedure msg o1 o2 o3 o4 in
  ready (t r) = true /\
  was_pdu_session_resource_setup_successful (t r) = o1 && o2 && o3 && o4 /\
  (was_pdu_session_resource_setup_successful (t r) = true ->
   exists resp, get (t r) = Some resp /\
     pdu_session_res_failed_to_setup_items resp = [] /\
     pdu_session_res_setup_response_items resp <> []) /\
  calls r =
    on_bearer_context_setup_request ::
    (if o1 then
       on_ue_context_modification_request ::
       (if o2 then
          on_bearer_context_modification_request ::
          (if o3 then [on_rrc_reconfiguration_request] else [])
        else [])
     else []).
Proof.
  intros Hne r. subst r.
  pose proof (handle_result_success_sets msg Hne) as Hs.
  pose proof (handle_result_failure_sets msg Hne) as Hf.
  unfold start_procedure, launch.
  destruct (pdu_session_res_setup_items msg) as [|item items] eqn:Hitems; [congruence|].
  destruct o1, o2, o3, o4; cbn [drive t resume next_stage notifier_reply request calls
    bearer_context_setup_outcome ue_context_modification_outcome
    bearer_context_modification_outcome rrc_reconfiguration_outcome andb ready app];
    (split; [reflexivity|]); (split; [first [exact Hs | exact Hf]|]);
    (split; [|reflexivity]); rewrite ?Hf; try discriminate.
  intros _. eexists. split; [reflexivity|].
  unfold handle_pdu_session_resource_setup_result. simpl. rewrite Hitems. split; [reflexivity|discriminate].
Qed.

Lemma pdu_session_setup_successful_iff_all_stages_witness :
  let msg := {| cu_cp_ue_id := 0; pdu_session_res_setup_items := [1] |} in
  let r := start_procedure msg true true true true in
  ready (t r) = true /\
  was_pdu_session_resource_setup_successful (t r) = true && true && true && true /\
  (was_pdu_session_resource_setup_successful (t r) = true ->
   exists resp, get (t r) = Some resp /\
     pdu_session_res_failed_to_setup_items resp = [] /\
     pdu_session_res_setup_response_items resp <> []) /\
  calls r =
    [on_bearer_context_setup_request; on_ue_context_modification_request;
     on_bearer_context_modification_request; on_rrc_reconfiguration_request].
Proof.
  intros msg.
  apply (pdu_session_setup_successful_iff_all_stages msg true true true true).
  simpl. discriminate.
Defined.

(** C2.  A request without any PDU session is ready as soon as it is
    launched, with an empty succeeded set and an empty failed set and without
    any call to a collaborator; the fixture has nothing to answer, and the
    success predicate is false. *)
Theorem empty_pdu_session_setup_request_ready_at_once
    (msg : cu_cp_pdu_session_resource_setup_request) (o1 o2 o3 o4 : bool) :
  pdu_session_res_setup_items msg = [] ->
  t (launch msg) =
    task_ready {| pdu_session_res_setup_response_items := [];
                  pdu_session_res_failed_to_setup_items := [] |} /\
  calls (launch msg) = [] /\
  start_procedure msg o1 o2 o3 o4 = launch msg /\
  was_pdu_session_resource_setup_successful (t (start_procedure msg o1 o2 o3 o4)) = false.
Proof.
  intros Hempty. unfold start_procedure, launch. rewrite Hempty. simpl.
  repeat split; reflexivity.
Qed.

Lemma empty_pdu_session_setup_request_ready_at_once_witness :
  let msg := {| cu_cp_ue_id := 0; pdu_session_res_setup_items := [] |} in
  t (launch msg) =
    task_ready {| pdu_session_res_setup_response_items := [];
                  pdu_session_res_failed_to_setup_items := [] |} /\
  calls (launch msg) = [] /\
  start_procedure msg true true true true = launch msg /\
  was_pdu_session_resource_setup_successful (t (start_procedure msg true true true true)) = false.
Proof.
  intros msg.
  apply (empty_pdu_session_setup_request_ready_at_once msg true true true true).
  reflexivity.
Defined.

(** ** The UE registry: slots *)

Lemma contains_slot_get {T} (db : slot_array T) idx :
  contains db idx = true <-> exists x, slot_get db idx = Some x.
Proof.
  unfold contains, slot_get.
  destruct (db !! idx) as [[x|]|]; split; intros H; eauto;
    try discriminate; destruct H as [? H]; discriminate.
Qed.

Lemma contains_false_slot_get {T} (db : slot_array T) idx :
  contains db idx = false <-> slot_get db idx = None.
Proof.
  unfold contains, slot_get.
  destruct (db !! idx) as [[x|]|]; split; intros H; congruence.
Qed.

Lemma contains_lt {T} (db : slot_array T) idx :
  contains db idx = true -> idx < length db.
Proof.
  unfold contains. intros H. apply lookup_lt_is_Some.
  destruct (db !! idx); [by eexists | discriminate].
Qed.

Lemma slot_get_insert_ne {T} (db : slot_array T) i j x :
  i <> j -> slot_get (<[j := x]> db) i = slot_get db i.
Proof.
  intros Hne. unfold slot_get. rewrite list_lookup_insert_ne; [reflexivity | congruence].
Qed.

Lemma slot_get_insert_eq {T} (db : slot_array T) i x :
  i < length db -> slot_get (<[i := x]> db) i = x.
Proof.
  intros Hlt. unfold slot_get. rewrite list_lookup_insert_eq by assumption.
  destruct x; reflexivity.
Qed.

Lemma contains_insert_ne {T} (db : slot_array T) i j x :
  i <> j -> contains (<[j := x]> db) i = contains db i.
Proof.
  intros Hne. unfold contains. rewrite list_lookup_insert_ne; [reflexivity | congruence].
Qed.

Lemma contains_insert_Some {T} (db : slot_array T) i j x :
  contains db i = true -> contains (<[j := Some x]> db) i = true.
Proof.
  intros H. destruct (decide (i = j)) as [->|Hne].
  - unfold contains. rewrite list_lookup_insert_eq; [reflexivity|].
    by apply contains_lt.
  - by rewrite contains_insert_ne.
Qed.

Lemma contains_schedule_on_ue p idx db i :
  contains (schedule_on_ue p idx db) i = contains db i.
Proof.
  unfold schedule_on_ue.
  destruct (db !! idx) as [[u|]|] eqn:Hidx; try reflexivity.
  destruct (decide (i = idx)) as [->|Hne].
  - unfold contains. rewrite list_lookup_insert_eq, Hidx; [reflexivity|].
    apply lookup_lt_is_Some; eauto.
  - by apply contains_insert_ne.
Qed.

Lemma length_schedule_on_ue p idx db :
  length (schedule_on_ue p idx db) = length db.
Proof.
  unfold schedule_on_ue.
  destruct (db !! idx) as [[u|]|]; try reflexivity. apply length_insert.
Qed.

(** Exposes the binds, assertions and array reads of a call. *)
Ltac unfold_outcome :=
  unfold mbind, outcome_bind, srsran_assert, array_get.

Tactic Notation "unfold_outcome" "in" hyp(H) :=
  unfold mbind, outcome_bind, srsran_assert, array_get in H.

Section component_properties.
Context `{!du_constants}.

(** ** Requests that name an entity that is not in the registry *)

(** C5.  A delete request for an entity index that is not in the registry
    delivers [on_ue_delete_complete] with [result = false] (and the index of
    the request) to the notifier; the registry with its control loops, the
    reverse index and the main control loop are left as they were, so no
    procedure has been scheduled. *)
Theorem ue_delete_request_inexistent_ue
    (s : mac_ctrl_component) (msg : mac_ue_delete_request_message) :
  contains (ue_db s) (delete_ue_index msg) = false ->
  exists s',
    ue_delete_request s msg = Ok s' /\
    cfg_notifier s' =
      cfg_notifier s ++
        [on_ue_delete_complete {| delete_resp_ue_index := delete_ue_index msg;
                                  delete_resp_result := false |}] /\
    ue_db s' = ue_db s /\
    rnti_to_ue_index_map s' = rnti_to_ue_index_map s /\
    main_ctrl_loop s' = main_ctrl_loop s.
Proof.
  intros Hmiss. unfold ue_delete_request. rewrite Hmiss. simpl.
  eexists. split; [reflexivity|]. simpl. auto.
Qed.

(** C6.  A reconfiguration request for an entity index that is not in the
    registry delivers [on_ue_reconfiguration_complete] with [result = false]
    to the notifier; no procedure is scheduled and the registry, the reverse
    index and the main control loop are unchanged. *)
Theorem ue_reconfiguration_request_inexistent_ue
    (s : mac_ctrl_component) (msg : mac_ue_reconfiguration_request_message) :
  contains (ue_db s) (reconf_ue_index msg) = false ->
  exists s',
    ue_reconfiguration_request s msg = Ok s' /\
    cfg_notifier s' =
      cfg_notifier s ++
        [on_ue_reconfiguration_complete {| reconf_resp_ue_index := reconf_ue_index msg;
                                           reconf_resp_result := false |}] /\
    ue_db s' = ue_db s /\
    rnti_to_ue_index_map s' = rnti_to_ue_index_map s /\
    main_ctrl_loop s' = main_ctrl_loop s.
Proof.
  intros Hmiss. unfold ue_reconfiguration_request. rewrite Hmiss. simpl.
  eexists. split; [reflexivity|]. simpl. auto.
Qed.

(** C10.  [remove_ue] on an entity index below [MAX_NOF_UES] that is not in
    the registry returns normally: it writes the warning to the log and
    changes nothing else, in particular it schedules no closure on the main
    control loop. *)
Theorem remove_ue_absent_is_noop (s : mac_ctrl_component) (ue_index : nat) :
  ue_index < MAX_NOF_UES ->
  contains (ue_db s) ue_index = false ->
  exists s',
    remove_ue s ue_index = Ok s' /\
    logger s' = logger s ++ [warning_failed_to_find ue_index] /\
    main_ctrl_loop s' = main_ctrl_loop s /\
    ue_db s' = ue_db s /\
    rnti_to_ue_index_map s' = rnti_to_ue_index_map s /\
    cfg_notifier s' = cfg_notifier s.
Proof.
  intros Hlt Hmiss. unfold remove_ue.
  apply Nat.ltb_lt in Hlt. rewrite Hlt, Hmiss. simpl.
  eexists. split; [reflexivity|]. simpl. auto.
Qed.

(** ** The shape of reachable registries *)

Lemma well_formed_init : well_formed mac_ctrl_component_init.
Proof.
  unfold well_formed, mac_ctrl_component_init. simpl.
  rewrite !length_replicate. repeat split.
  intros i v Hv. apply lookup_replicate in Hv as [-> _]. lia.
Qed.

Lemma well_formed_same_tables s s' :
  length (ue_db s') = length (ue_db s) ->
  rnti_to_ue_index_map s' = rnti_to_ue_index_map s ->
  well_formed s -> well_formed s'.
Proof.
  unfold well_formed. intros Hdb Hmap (Hl1 & Hl2 & Hle).
  rewrite Hdb, Hmap. auto.
Qed.

Lemma add_ue_unfold s ue_index crnti cell_index :
  add_ue s ue_index crnti cell_index =
  if crnti =? INVALID_RNTI then Fatal Invalid_RNTI
  else if ue_index <? MAX_NOF_UES then
    match rnti_to_ue_index_map s !! (crnti mod MAX_NOF_UES) with
    | None => Fatal Out_of_bounds
    | Some slot =>
        if slot <? MAX_NOF_UES then Ok (s, None)
        else if contains (ue_db s) ue_index then Ok (s, None)
        else
          Ok (set_rnti_to_ue_index_map
                (<[crnti mod MAX_NOF_UES := ue_index]> (rnti_to_ue_index_map s))
                (set_ue_db
                   (emplace (ue_db s) ue_index
                      {| ue_ctx := {| du_ue_index := ue_index; rnti := crnti;
                                      pcell_idx := cell_index |};
                         ctrl_loop := idle_loop |}) s),
              Some ue_index)
    end
  else Fatal Invalid_ue_index.
Proof.
  unfold add_ue, mbind, outcome_bind, srsran_assert, array_get.
  destruct (crnti =? INVALID_RNTI); simpl; [reflexivity|].
  destruct (ue_index <? MAX_NOF_UES); simpl; [|reflexivity].
  destruct (rnti_to_ue_index_map s !! (crnti mod MAX_NOF_UES)); reflexivity.
Qed.

Lemma add_ue_well_formed s ue_index crnti cell_index s' r :
  well_formed s -> add_ue s ue_index crnti cell_index = Ok (s', r) -> well_formed s'.
Proof.
  intros Hwf. rewrite add_ue_unfold. intros Hadd.
  repeat case_match; simplify_eq; try assumption.
  destruct Hwf as (Hl1 & Hl2 & Hle). unfold well_formed, emplace. simpl.
  rewrite !length_insert. repeat split; try assumption.
  intros i v Hv. apply list_lookup_insert_Some in Hv as [(_ & <- & _)|(_ & Hv)].
  - match goal with H : (_ <? _) = true |- _ => apply Nat.ltb_lt in H; lia end.
  - eauto.
Qed.

Lemma ue_create_request_well_formed s msg s' :
  well_formed s -> ue_create_request s msg = Ok s' -> well_formed s'.
Proof.
  intros Hwf. unfold ue_create_request, mbind, outcome_bind.
  destruct (add_ue s _ _ _) as [[s1 [u|]]|f] eqn:Hadd; [| |discriminate];
    intros [= <-]; apply add_ue_well_formed in Hadd; try assumption;
    eapply well_formed_same_tables; try eassumption; simpl; auto using length_schedule_on_ue.
Qed.

Lemma ue_delete_request_well_formed s msg s' :
  well_formed s -> ue_delete_request s msg = Ok s' -> well_formed s'.
Proof.
  intros Hwf. unfold ue_delete_request. case_match; intros [= <-];
    eapply well_formed_same_tables; try eassumption; simpl; auto using length_schedule_on_ue.
Qed.

Lemma ue_reconfiguration_request_well_formed s msg s' :
  well_formed s -> ue_reconfiguration_request s msg = Ok s' -> well_formed s'.
Proof.
  intros Hwf. unfold ue_reconfiguration_request. case_match; intros [= <-];
    eapply well_formed_same_tables; try eassumption; simpl; auto using length_schedule_on_ue.
Qed.

Lemma removal_closure_begin_cases s ue_index s1 st :
  removal_closure_begin s ue_index = Ok (s1, st) ->
  exists u, slot_get (ue_db s) ue_index = Some u /\
    ((st = Suspended /\ s1 = s /\ request_stop_resolved (ctrl_loop u) = false) \/
     (st = Returned /\ s1 = removal_closure_finish s ue_index /\
      request_stop_resolved (ctrl_loop u) = true)).
Proof.
  unfold removal_closure_begin, mbind, outcome_bind, srsran_assert.
  destruct (contains (ue_db s) ue_index); [|discriminate].
  destruct (slot_get (ue_db s) ue_index) as [u|]; [|discriminate].
  destruct (request_stop_resolved (ctrl_loop u)) eqn:Hstop; intros [= <- <-]; eauto 10.
Qed.

Lemma main_ctrl_loop_run_well_formed q : forall s s',
  well_formed s -> main_ctrl_loop_run s q = Ok s' -> well_formed s'.
Proof.
  induction q as [|ue_index q IH]; intros s s' Hwf; simpl.
  - intros [= <-]. eapply well_formed_same_tables; try eassumption; reflexivity.
  - unfold mbind, outcome_bind.
    destruct (removal_closure_begin s ue_index) as [[s1 st]|f] eqn:Hbegin; [|discriminate].
    apply removal_closure_begin_cases in Hbegin as (u & _ & [(-> & -> & _)|(-> & -> & _)]).
    + intros [= <-]. eapply well_formed_same_tables; try eassumption; reflexivity.
    + apply IH. eapply well_formed_same_tables; try eassumption; [|reflexivity].
      simpl. unfold erase. apply length_insert.
Qed.

Lemma remove_ue_well_formed s ue_index s' :
  well_formed s -> remove_ue s ue_index = Ok s' -> well_formed s'.
Proof.
  intros Hwf. unfold remove_ue, mbind, outcome_bind, srsran_assert, main_ctrl_loop_schedule.
  destruct (ue_index <? MAX_NOF_UES); [|discriminate].
  destruct (negb (contains (ue_db s) ue_index)).
  - intros [= <-]. eapply well_formed_same_tables; try eassumption; reflexivity.
  - simpl. destruct (running (main_ctrl_loop s)).
    + intros [= <-]. eapply well_formed_same_tables; try eassumption; reflexivity.
    + apply main_ctrl_loop_run_well_formed.
      eapply well_formed_same_tables; try eassumption; reflexivity.
Qed.

Lemma main_ctrl_loop_resume_well_formed s s' :
  well_formed s -> main_ctrl_loop_resume s = Ok s' -> well_formed s'.
Proof.
  intros Hwf. unfold main_ctrl_loop_resume.
  destruct (running (main_ctrl_loop s)) as [ue_index|]; [|by intros [= <-]].
  destruct (slot_get (ue_db s) ue_index) as [u|]; [|discriminate].
  destruct (request_stop_resolved (ctrl_loop u)); [|by intros [= <-]].
  apply main_ctrl_loop_run_well_formed.
  eapply well_formed_same_tables; try eassumption; [|reflexivity].
  simpl. unfold erase. apply length_insert.
Qed.

Lemma procedure_complete_well_formed s ue_index :
  well_formed s -> well_formed (procedure_complete s ue_index).
Proof.
  intros Hwf. unfold procedure_complete.
  repeat case_match; try assumption.
  eapply well_formed_same_tables; try eassumption; [|reflexivity].
  simpl. apply length_insert.
Qed.

Lemma step_well_formed s ev s' :
  well_formed s -> step s ev = Ok s' -> well_formed s'.
Proof.
  intros Hwf. destruct ev; simpl.
  - by apply ue_create_request_well_formed.
  - by apply ue_delete_request_well_formed.
  - by apply ue_reconfiguration_request_well_formed.
  - by apply remove_ue_well_formed.
  - intros [= <-]. by apply procedure_complete_well_formed.
  - by apply main_ctrl_loop_resume_well_formed.
Qed.

Lemma reachable_well_formed s : reachable s -> well_formed s.
Proof.
  induction 1 as [|s ev s' _ IH Hstep]; [apply well_formed_init|].
  eapply step_well_formed; eassumption.
Qed.

Lemma run_reachable evs : forall s s',
  reachable s -> run s evs = Ok s' -> reachable s'.
Proof.
  induction evs as [|ev evs IH]; intros s s' Hs; simpl.
  - by intros [= <-].
  - unfold mbind, outcome_bind. destruct (step s ev) as [s1|f] eqn:Hstep; [|discriminate].
    apply IH. eapply reachable_step; eassumption.
Qed.

Lemma reverse_index_lookup s r :
  well_formed s -> 0 < MAX_NOF_UES ->
  exists ue_index,
    rnti_to_ue_index_map s !! (r mod MAX_NOF_UES) = Some ue_index /\
    ue_index <= MAX_NOF_UES.
Proof.
  intros (_ & Hlen & Hle) Hpos.
  destruct (lookup_lt_is_Some_2 (rnti_to_ue_index_map s) (r mod MAX_NOF_UES)) as [v Hv].
  - rewrite Hlen. apply Nat.mod_upper_bound. lia.
  - eauto.
Qed.

(** ** Creating an entity *)

(** C3, amended.  For a create request with a valid entity index and a valid
    radio identifier: when the reverse index already sends the identifier to
    an entity of the registry, or the entity index is already occupied,
    [add_ue] returns null and leaves the component as it was, and
    [ue_create_request] delivers [on_ue_create_request_complete] with
    [result = false] and the entity index and cell index of the request; the
    registry with its control loops, the reverse index and the main control
    loop are unchanged, so no procedure has been scheduled. *)
Theorem ue_create_request_conflict_rejected
    (s : mac_ctrl_component) (msg : mac_ue_create_request_message) :
  reachable s ->
  create_crnti msg <> INVALID_RNTI ->
  create_ue_index msg < MAX_NOF_UES ->
  maps_to_live_ue s (create_crnti msg) \/ contains (ue_db s) (create_ue_index msg) = true ->
  add_ue s (create_ue_index msg) (create_crnti msg) (create_cell_index msg) = Ok (s, None) /\
  exists s',
    ue_create_request s msg = Ok s' /\
    cfg_notifier s' =
      cfg_notifier s ++
        [on_ue_create_request_complete
           {| create_resp_ue_index := create_ue_index msg;
              create_resp_cell_index := create_cell_index msg;
              create_resp_result := false |}] /\
    ue_db s' = ue_db s /\
    rnti_to_ue_index_map s' = rnti_to_ue_index_map s /\
    main_ctrl_loop s' = main_ctrl_loop s.
Proof.
  intros Hreach Hrnti Hidx Hconflict.
  pose proof (reachable_well_formed s Hreach) as Hwf.
  assert (Hadd : add_ue s (create_ue_index msg) (create_crnti msg) (create_cell_index msg)
                 = Ok (s, None)).
  { rewrite add_ue_unfold.
    apply Nat.eqb_neq in Hrnti. rewrite Hrnti.
    pose proof Hidx as Hidxb. apply Nat.ltb_lt in Hidxb. rewrite Hidxb.
    destruct (reverse_index_lookup s (create_crnti msg) Hwf) as (slot & Hslot & _); [lia|].
    rewrite Hslot.
    destruct Hconflict as [(ue_index & Hmap & Hlive)|Hocc].
    - assert (slot = ue_index) as -> by congruence.
      apply contains_lt in Hlive. destruct Hwf as (Hlen & _). rewrite Hlen in Hlive.
      apply Nat.ltb_lt in Hlive. by rewrite Hlive.
    - rewrite Hocc. by destruct (slot <? MAX_NOF_UES). }
  split; [exact Hadd|].
  unfold ue_create_request, mbind, outcome_bind. rewrite Hadd.
  eexists. split; [reflexivity|]. simpl. auto.
Qed.

(** ** Assertions *)

(** C9.  In a reachable component (of non-zero capacity), [add_ue], [find_ue]
    and [find_by_rnti] never end in a fatal outcome when the entity index is
    below [MAX_NOF_UES] and the radio identifier is not [INVALID_RNTI]; when
    either precondition is violated the call ends in the corresponding
    assertion and so never in a null result. *)
Theorem assertions_guard_preconditions (s : mac_ctrl_component) :
  reachable s ->
  0 < MAX_NOF_UES ->
  (forall ue_index crnti cell_index,
      crnti <> INVALID_RNTI -> ue_index < MAX_NOF_UES ->
      is_fatal (add_ue s ue_index crnti cell_index) = false) /\
  (forall ue_index, ue_index < MAX_NOF_UES -> is_fatal (find_ue s ue_index) = false) /\
  (forall r, r <> INVALID_RNTI -> is_fatal (find_by_rnti s r) = false) /\
  (forall ue_index cell_index,
      add_ue s ue_index INVALID_RNTI cell_index = Fatal Invalid_RNTI) /\
  (forall ue_index crnti cell_index,
      crnti <> INVALID_RNTI -> MAX_NOF_UES <= ue_index ->
      add_ue s ue_index crnti cell_index = Fatal Invalid_ue_index) /\
  (forall ue_index, MAX_NOF_UES <= ue_index -> find_ue s ue_index = Fatal Invalid_ue_index) /\
  find_by_rnti s INVALID_RNTI = Fatal Invalid_RNTI.
Proof.
  intros Hreach Hpos.
  pose proof (reachable_well_formed s Hreach) as Hwf.
  repeat split.
  - intros ue_index crnti cell_index Hrnti Hidx. rewrite add_ue_unfold.
    apply Nat.eqb_neq in Hrnti. apply Nat.ltb_lt in Hidx. rewrite Hrnti, Hidx.
    destruct (reverse_index_lookup s crnti Hwf Hpos) as (slot & -> & _).
    repeat case_match; reflexivity.
  - intros ue_index Hidx. unfold find_ue, mbind, outcome_bind, srsran_assert.
    apply Nat.ltb_lt in Hidx. by rewrite Hidx.
  - intros r Hrnti. unfold find_by_rnti, mbind, outcome_bind, srsran_assert, array_get.
    apply Nat.eqb_neq in Hrnti. rewrite Hrnti. simpl.
    destruct (reverse_index_lookup s r Hwf Hpos) as (ue_index & -> & Hle).
    destruct (ue_index =? MAX_NOF_UES) eqn:Heq; [reflexivity|].
    apply Nat.eqb_neq in Heq. unfold find_ue, mbind, outcome_bind, srsran_assert.
    assert (Hlt : (ue_index <? MAX_NOF_UES) = true) by (apply Nat.ltb_lt; lia).
    by rewrite Hlt.
  - intros ue_index cell_index. rewrite add_ue_unfold. by rewrite Nat.eqb_refl.
  - intros ue_index crnti cell_index Hrnti Hidx. rewrite add_ue_unfold.
    apply Nat.eqb_neq in Hrnti. rewrite Hrnti.
    assert (Hge : (ue_index <? MAX_NOF_UES) = false) by (apply Nat.ltb_ge; lia).
    by rewrite Hge.
  - intros ue_index Hidx. unfold find_ue, mbind, outcome_bind, srsran_assert.
    assert (Hge : (ue_index <? MAX_NOF_UES) = false) by (apply Nat.ltb_ge; lia).
    by rewrite Hge.
  - unfold find_by_rnti, mbind, outcome_bind, srsran_assert. by rewrite Nat.eqb_refl.
Qed.

(** ** Looking an entity up by its radio identifier *)

Lemma find_by_rnti_unfold s r ue_index :
  r <> INVALID_RNTI ->
  rnti_to_ue_index_map s !! (r mod MAX_NOF_UES) = Some ue_index ->
  ue_index <= MAX_NOF_UES ->
  find_by_rnti s r =
    Ok (if ue_index =? MAX_NOF_UES then None else ue_ctx <$> slot_get (ue_db s) ue_index).
Proof.
  intros Hrnti Hslot Hle. unfold find_by_rnti. unfold_outcome.
  apply Nat.eqb_neq in Hrnti. rewrite Hrnti, Hslot. simpl.
  destruct (ue_index =? MAX_NOF_UES) eqn:Heq; [reflexivity|].
  apply Nat.eqb_neq in Heq. unfold find_ue. unfold_outcome.
  assert (Hlt : (ue_index <? MAX_NOF_UES) = true) by (apply Nat.ltb_lt; lia).
  rewrite Hlt. simpl.
  destruct (contains (ue_db s) ue_index) eqn:Hin; [reflexivity|].
  apply contains_false_slot_get in Hin. by rewrite Hin.
Qed.

(** C7, amended.  For a valid radio identifier, [find_by_rnti] reads slot
    [rnti % MAX_NOF_UES] of the reverse index.  It returns null whenever that
    slot is unmapped or holds an entity index that is not in the registry,
    and a non-null result is the context of the entity the registry holds at
    the index found in that slot.  While no slot is left over from an erased
    entity, it returns null whenever no entity of the registry was created
    with an identifier equal to [rnti] modulo [MAX_NOF_UES], and a non-null
    result is an entity created with such an identifier. *)
Theorem find_by_rnti_follows_reverse_index (s : mac_ctrl_component) (r : nat) :
  reachable s ->
  0 < MAX_NOF_UES ->
  r <> INVALID_RNTI ->
  (exists ue_index,
    rnti_to_ue_index_map s !! (r mod MAX_NOF_UES) = Some ue_index /\
    (ue_index = MAX_NOF_UES \/ contains (ue_db s) ue_index = false ->
     find_by_rnti s r = Ok None) /\
    (forall ctx, find_by_rnti s r = Ok (Some ctx) ->
       exists u, ue_index < MAX_NOF_UES /\
         slot_get (ue_db s) ue_index = Some u /\ ctx = ue_ctx u)) /\
  (no_stale_slot s ->
   ((forall i u, slot_get (ue_db s) i = Some u ->
       rnti (ue_ctx u) mod MAX_NOF_UES <> r mod MAX_NOF_UES) ->
    find_by_rnti s r = Ok None) /\
   (forall ctx, find_by_rnti s r = Ok (Some ctx) ->
      rnti ctx mod MAX_NOF_UES = r mod MAX_NOF_UES /\
      exists i u, slot_get (ue_db s) i = Some u /\ ctx = ue_ctx u)).
Proof.
  intros Hreach Hpos Hrnti.
  pose proof (reachable_well_formed s Hreach) as Hwf.
  destruct (reverse_index_lookup s r Hwf Hpos) as (ue_index & Hslot & Hle).
  rewrite (find_by_rnti_unfold s r ue_index Hrnti Hslot Hle).
  split.
  - exists ue_index. split; [exact Hslot|].
    destruct (ue_index =? MAX_NOF_UES) eqn:Heq.
    + split; [reflexivity | discriminate].
    + apply Nat.eqb_neq in Heq. split.
      * intros [?|Hmiss]; [contradiction|].
        apply contains_false_slot_get in Hmiss. by rewrite Hmiss.
      * intros ctx. destruct (slot_get (ue_db s) ue_index) as [u|]; [|discriminate].
        intros [= <-]. exists u. repeat split. lia.
  - intros Hfresh.
    destruct (ue_index =? MAX_NOF_UES) eqn:Heq; [split; [reflexivity | discriminate]|].
    apply Nat.eqb_neq in Heq.
    destruct (Hfresh _ _ Hslot) as (u & Hu & Hmod); [lia|].
    rewrite Hu. simpl. split.
    + intros Hnone. by destruct (Hnone _ _ Hu).
    + intros ctx [= <-]. eauto.
Qed.

(** ** Removing an entity *)

Lemma drained_spec {T} (loop : async_task_sequencer T) :
  drained loop = true <-> running loop = None /\ queue loop = [].
Proof.
  unfold drained. destruct (running loop), (queue loop); split; intros Hd;
    try discriminate; try (destruct Hd; discriminate); auto.
Qed.

Lemma main_ctrl_loop_run_erases_drained q : forall s s' i,
  main_ctrl_loop_run s q = Ok s' ->
  contains (ue_db s) i = true ->
  contains (ue_db s') i = false ->
  exists u, slot_get (ue_db s) i = Some u /\ drained (ctrl_loop u) = true.
Proof.
  induction q as [|ue_index q IH]; intros s s' i; simpl.
  - intros [= <-]. simpl. congruence.
  - unfold mbind, outcome_bind.
    destruct (removal_closure_begin s ue_index) as [[s1 st]|f] eqn:Hbegin; [|discriminate].
    apply removal_closure_begin_cases in Hbegin
      as (u & Hu & [(-> & -> & _)|(-> & -> & Hstop)]).
    + intros [= <-]. simpl. congruence.
    + intros Hrun Hin Hout. destruct (decide (i = ue_index)) as [->|Hne]; [eauto|].
      destruct (IH _ _ i Hrun) as (u' & Hu' & Hdrained); [|exact Hout|].
      * simpl. unfold erase. by rewrite contains_insert_ne.
      * exists u'. split; [|exact Hdrained].
        simpl in Hu'. unfold erase in Hu'. by rewrite slot_get_insert_ne in Hu'.
Qed.

Lemma add_ue_keeps_entities s ue_index crnti cell_index s' r i :
  add_ue s ue_index crnti cell_index = Ok (s', r) ->
  contains (ue_db s) i = true -> contains (ue_db s') i = true.
Proof.
  rewrite add_ue_unfold. intros Hadd Hin.
  repeat case_match; simplify_eq; try assumption.
  simpl. unfold emplace. by apply contains_insert_Some.
Qed.

(** C8.  A step of the component takes an entity out of the registry only
    through the closure that [remove_ue] scheduled on the main control loop,
    and only once the suspension of [request_stop] on the control loop of
    that entity has resolved: at the erasure this loop has no running and no
    queued task. *)
Theorem erase_preceded_by_drain
    (s : mac_ctrl_component) (ev : event) (s' : mac_ctrl_component) (i : nat) :
  step s ev = Ok s' ->
  contains (ue_db s) i = true ->
  contains (ue_db s') i = false ->
  ((exists ue_index, ev = ev_remove_ue ue_index) \/ ev = ev_main_ctrl_loop_resume) /\
  exists u,
    slot_get (ue_db s) i = Some u /\
    request_stop_resolved (ctrl_loop u) = true /\
    running (ctrl_loop u) = None /\ queue (ctrl_loop u) = [].
Proof.
  intros Hstep Hin Hout.
  assert (Hmain : ((exists ue_index, ev = ev_remove_ue ue_index) \/ ev = ev_main_ctrl_loop_resume) /\
                  exists u, slot_get (ue_db s) i = Some u /\ drained (ctrl_loop u) = true).
  { destruct ev as [msg|msg|msg|ue_index|ue_index|]; simpl in Hstep.
    - exfalso. unfold ue_create_request, mbind, outcome_bind in Hstep.
      destruct (add_ue s _ _ _) as [[s1 r]|f] eqn:Hadd; [|discriminate].
      eapply add_ue_keeps_entities in Hadd; [|exact Hin].
      destruct r; simplify_eq; simpl in Hout; [|congruence].
      rewrite contains_schedule_on_ue in Hout. congruence.
    - exfalso. unfold ue_delete_request in Hstep.
      case_match; simplify_eq; simpl in Hout; [congruence|].
      rewrite contains_schedule_on_ue in Hout. congruence.
    - exfalso. unfold ue_reconfiguration_request in Hstep.
      case_match; simplify_eq; simpl in Hout; [congruence|].
      rewrite contains_schedule_on_ue in Hout. congruence.
    - split; [eauto|].
      unfold remove_ue, mbind, outcome_bind, srsran_assert, main_ctrl_loop_schedule in Hstep.
      destruct (ue_index <? MAX_NOF_UES); [|discriminate].
      destruct (negb (contains (ue_db s) ue_index)).
      { simplify_eq. simpl in Hout. congruence. }
      simpl in Hstep. destruct (running (main_ctrl_loop s)).
      { simplify_eq. simpl in Hout. congruence. }
      eapply main_ctrl_loop_run_erases_drained in Hstep; [exact Hstep|exact Hin|exact Hout].
    - exfalso. simplify_eq. unfold procedure_complete in Hout.
      repeat case_match; try congruence.
      simpl in Hout. rewrite contains_insert_Some in Hout; [discriminate|exact Hin].
    - split; [eauto|].
      unfold main_ctrl_loop_resume in Hstep.
      destruct (running (main_ctrl_loop s)) as [ue_index|]; [|simplify_eq; congruence].
      destruct (slot_get (ue_db s) ue_index) as [u|] eqn:Hu; [|discriminate].
      destruct (request_stop_resolved (ctrl_loop u)) eqn:Hstop; [|simplify_eq; congruence].
      destruct (decide (i = ue_index)) as [->|Hne]; [eauto|].
      eapply main_ctrl_loop_run_erases_drained with (i := i) in Hstep.
      + destruct Hstep as (u' & Hu' & Hdrained). exists u'. split; [|exact Hdrained].
        simpl in Hu'. unfold erase in Hu'. by rewrite slot_get_insert_ne in Hu'.
      + simpl. unfold erase. by rewrite contains_insert_ne.
      + exact Hout. }
  destruct Hmain as (Hev & u & Hu & Hdrained).
  split; [exact Hev|]. exists u. split; [exact Hu|]. split; [exact Hdrained|].
  by apply drained_spec.
Qed.

(** ** Entities and the reverse index *)

Lemma index_consistent_within s s' :
  rnti_to_ue_index_map s' = rnti_to_ue_index_map s ->
  entities_within s' s ->
  index_consistent s -> index_consistent s'.
Proof.
  intros Hmap Hsub Hinv i u' Hu'.
  destruct (Hsub i u' Hu') as (u & Hu & Hctx).
  rewrite Hmap, Hctx. by apply Hinv.
Qed.

Lemma entities_within_refl s s' :
  ue_db s' = ue_db s -> entities_within s' s.
Proof. intros Hdb i u Hu. rewrite Hdb in Hu. eauto. Qed.

Lemma entities_within_trans s1 s2 s3 :
  entities_within s3 s2 -> entities_within s2 s1 -> entities_within s3 s1.
Proof.
  intros H32 H21 i u3 Hu3.
  destruct (H32 i u3 Hu3) as (u2 & Hu2 & Hctx2).
  destruct (H21 i u2 Hu2) as (u1 & Hu1 & Hctx1).
  exists u1. split; [exact Hu1 | congruence].
Qed.

Lemma entities_within_schedule_on_ue p idx s s' :
  ue_db s' = schedule_on_ue p idx (ue_db s) -> entities_within s' s.
Proof.
  intros Hdb i u' Hu'. rewrite Hdb in Hu'. unfold schedule_on_ue in Hu'.
  destruct (ue_db s !! idx) as [[u|]|] eqn:Hidx; eauto.
  destruct (decide (i = idx)) as [->|Hne].
  - rewrite slot_get_insert_eq in Hu' by (apply lookup_lt_is_Some; eauto).
    simplify_eq. exists u. split; [|reflexivity].
    unfold slot_get. by rewrite Hidx.
  - rewrite slot_get_insert_ne in Hu' by assumption. eauto.
Qed.

Lemma entities_within_erase idx s s' :
  ue_db s' = erase (ue_db s) idx -> entities_within s' s.
Proof.
  intros Hdb i u' Hu'. rewrite Hdb in Hu'. unfold erase in Hu'.
  destruct (decide (i = idx)) as [->|Hne].
  - unfold slot_get in Hu'. destruct (decide (idx < length (ue_db s))).
    + rewrite list_lookup_insert_eq in Hu' by assumption. discriminate.
    + rewrite list_insert_ge in Hu' by lia. eauto.
  - rewrite slot_get_insert_ne in Hu' by assumption. eauto.
Qed.

Lemma main_ctrl_loop_run_within q : forall s s',
  main_ctrl_loop_run s q = Ok s' ->
  rnti_to_ue_index_map s' = rnti_to_ue_index_map s /\ entities_within s' s.
Proof.
  induction q as [|ue_index q IH]; intros s s'; simpl.
  - intros [= <-]. split; [reflexivity|]. by apply entities_within_refl.
  - unfold mbind, outcome_bind.
    destruct (removal_closure_begin s ue_index) as [[s1 st]|f] eqn:Hbegin; [|discriminate].
    apply removal_closure_begin_cases in Hbegin as (u & _ & [(-> & -> & _)|(-> & -> & _)]).
    + intros [= <-]. split; [reflexivity|]. by apply entities_within_refl.
    + intros Hrun. apply IH in Hrun as [Hmap Hsub]. split; [by rewrite Hmap|].
      eapply entities_within_trans; [exact Hsub|].
      by apply (entities_within_erase ue_index).
Qed.

Lemma index_consistent_init : index_consistent mac_ctrl_component_init.
Proof.
  intros i u Hu. unfold slot_get, mac_ctrl_component_init in Hu. simpl in Hu.
  destruct (replicate MAX_NOF_UES None !! i) as [[x|]|] eqn:Hi; try discriminate.
  apply lookup_replicate in Hi as [? _]. discriminate.
Qed.

Lemma add_ue_index_consistent s ue_index crnti cell_index s' r :
  well_formed s -> index_consistent s ->
  add_ue s ue_index crnti cell_index = Ok (s', r) -> index_consistent s'.
Proof.
  intros Hwf Hinv. rewrite add_ue_unfold. intros Hadd.
  destruct (crnti =? INVALID_RNTI) eqn:Hrnti; [discriminate|].
  destruct (ue_index <? MAX_NOF_UES) eqn:Hidx; [|discriminate].
  destruct (rnti_to_ue_index_map s !! (crnti mod MAX_NOF_UES)) as [slot|] eqn:Hslot;
    [|discriminate].
  destruct (slot <? MAX_NOF_UES) eqn:Hfree; [by simplify_eq|].
  destruct (contains (ue_db s) ue_index) eqn:Hocc; [by simplify_eq|].
  simplify_eq. apply Nat.eqb_neq in Hrnti. apply Nat.ltb_lt in Hidx. apply Nat.ltb_ge in Hfree.
  destruct Hwf as (Hlen1 & Hlen2 & _).
  intros i u Hu. simpl in *. unfold emplace in Hu.
  destruct (decide (i = ue_index)) as [->|Hne].
  - rewrite slot_get_insert_eq in Hu by lia. simplify_eq. simpl.
    repeat split; [assumption|].
    apply list_lookup_insert_eq. by apply lookup_lt_is_Some.
  - rewrite slot_get_insert_ne in Hu by assumption.
    destruct (Hinv i u Hu) as (Hi & Hvalid & Hmap).
    repeat split; [assumption..|].
    rewrite list_lookup_insert_ne; [exact Hmap|].
    intros Heq. rewrite Heq, Hmap in Hslot.
    assert (slot = i) as -> by congruence.
    assert (contains (ue_db s) i = true) as Hlive by (apply contains_slot_get; eauto).
    apply contains_lt in Hlive. lia.
Qed.

Lemma entities_within_procedure_complete s ue_index :
  entities_within (procedure_complete s ue_index) s.
Proof.
  unfold procedure_complete.
  destruct (slot_get (ue_db s) ue_index) as [u|] eqn:Hu; [|by apply entities_within_refl].
  destruct (running (ctrl_loop u)); [|by apply entities_within_refl].
  intros i u' Hu'. simpl in Hu'.
  destruct (decide (i = ue_index)) as [->|Hne].
  - rewrite slot_get_insert_eq in Hu'.
    + simplify_eq. eauto.
    + apply contains_lt. apply contains_slot_get. eauto.
  - rewrite slot_get_insert_ne in Hu' by assumption. eauto.
Qed.

(** Only a successful create writes to the reverse index or adds an entity:
    no other step, the erasure of an entity included, changes the reverse
    index. *)
Lemma step_within s ev s' :
  step s ev = Ok s' ->
  (forall msg, ev <> ev_ue_create_request msg) ->
  rnti_to_ue_index_map s' = rnti_to_ue_index_map s /\ entities_within s' s.
Proof.
  intros Hstep Hev. destruct ev as [msg|msg|msg|ue_index|ue_index|]; simpl in Hstep.
  - by destruct (Hev msg).
  - unfold ue_delete_request in Hstep. case_match; simplify_eq; (split; [reflexivity|]).
    + by apply entities_within_refl.
    + by eapply entities_within_schedule_on_ue.
  - unfold ue_reconfiguration_request in Hstep.
    case_match; simplify_eq; (split; [reflexivity|]).
    + by apply entities_within_refl.
    + by eapply entities_within_schedule_on_ue.
  - unfold remove_ue, main_ctrl_loop_schedule in Hstep. unfold_outcome in Hstep.
    destruct (ue_index <? MAX_NOF_UES); [|discriminate].
    destruct (negb (contains (ue_db s) ue_index)); simpl in Hstep.
    { simplify_eq. split; [reflexivity|]. by apply entities_within_refl. }
    destruct (running (main_ctrl_loop s)).
    { simplify_eq. split; [reflexivity|]. by apply entities_within_refl. }
    apply main_ctrl_loop_run_within in Hstep as [Hmap Hsub]. split; [exact Hmap|].
    eapply entities_within_trans; [exact Hsub|]. by apply entities_within_refl.
  - simplify_eq. split; [|apply entities_within_procedure_complete].
    unfold procedure_complete. by repeat case_match.
  - unfold main_ctrl_loop_resume in Hstep.
    destruct (running (main_ctrl_loop s)) as [ue_index|];
      [|simplify_eq; split; [reflexivity|]; by apply entities_within_refl].
    destruct (slot_get (ue_db s) ue_index) as [u|]; [|discriminate].
    destruct (request_stop_resolved (ctrl_loop u));
      [|simplify_eq; split; [reflexivity|]; by apply entities_within_refl].
    apply main_ctrl_loop_run_within in Hstep as [Hmap Hsub]. split; [exact Hmap|].
    eapply entities_within_trans; [exact Hsub|].
    by apply (entities_within_erase ue_index).
Qed.

(** A create request is [add_ue] followed by a change that touches neither
    the reverse index nor the set of entities and their contexts. *)
Lemma ue_create_request_cases s msg s' :
  ue_create_request s msg = Ok s' ->
  exists s1 r,
    add_ue s (create_ue_index msg) (create_crnti msg) (create_cell_index msg) = Ok (s1, r) /\
    rnti_to_ue_index_map s' = rnti_to_ue_index_map s1 /\
    entities_within s' s1 /\
    (forall i, contains (ue_db s') i = contains (ue_db s1) i).
Proof.
  unfold ue_create_request. unfold_outcome.
  destruct (add_ue s _ _ _) as [[s1 [u|]]|f] eqn:Hadd; [| |discriminate];
    intros [= <-]; exists s1; eexists; (split; [reflexivity|]); (split; [reflexivity|]).
  - split; [by eapply entities_within_schedule_on_ue|].
    intros i. simpl. apply contains_schedule_on_ue.
  - split; [by apply entities_within_refl | reflexivity].
Qed.

Lemma event_create_or_not ev :
  (exists msg, ev = ev_ue_create_request msg) \/ (forall msg, ev <> ev_ue_create_request msg).
Proof. destruct ev; eauto; right; discriminate. Qed.

Lemma step_index_consistent s ev s' :
  well_formed s -> index_consistent s -> step s ev = Ok s' -> index_consistent s'.
Proof.
  intros Hwf Hinv Hstep.
  destruct (event_create_or_not ev) as [[msg ->]|Hev].
  - simpl in Hstep.
    apply ue_create_request_cases in Hstep as (s1 & r & Hadd & Hmap & Hsub & _).
    apply (add_ue_index_consistent _ _ _ _ _ _ Hwf Hinv) in Hadd.
    by eapply index_consistent_within.
  - apply step_within in Hstep as [Hmap Hsub]; [|exact Hev].
    by eapply index_consistent_within.
Qed.

Lemma reachable_index_consistent s : reachable s -> index_consistent s.
Proof.
  induction 1 as [|s ev s' Hreach IH Hstep]; [apply index_consistent_init|].
  eapply step_index_consistent; try eassumption. by apply reachable_well_formed.
Qed.

Lemma no_stale_slot_init : no_stale_slot mac_ctrl_component_init.
Proof.
  intros k v Hv Hlt. simpl in Hv. apply lookup_replicate in Hv as [-> _]. lia.
Qed.

Lemma contains_init i : contains (ue_db mac_ctrl_component_init) i = false.
Proof.
  unfold contains. simpl.
  destruct (replicate MAX_NOF_UES None !! i) as [[x|]|] eqn:Hi; try reflexivity.
  apply lookup_replicate in Hi as [? _]. discriminate.
Qed.

Lemma no_stale_slot_preserved s s' :
  rnti_to_ue_index_map s' = rnti_to_ue_index_map s ->
  entities_within s' s ->
  (forall i, contains (ue_db s) i = true -> contains (ue_db s') i = true) ->
  no_stale_slot s -> no_stale_slot s'.
Proof.
  intros Hmap Hsub Hkeep Hfresh k v Hv Hlt. rewrite Hmap in Hv.
  destruct (Hfresh k v Hv Hlt) as (u & Hu & Hmod).
  assert (Hin : contains (ue_db s') v = true) by (apply Hkeep, contains_slot_get; eauto).
  apply contains_slot_get in Hin as [u' Hu'].
  destruct (Hsub v u' Hu') as (u0 & Hu0 & Hctx).
  exists u'. split; [exact Hu'|]. congruence.
Qed.

Lemma add_ue_no_stale_slot s ue_index crnti cell_index s' r :
  well_formed s -> no_stale_slot s ->
  add_ue s ue_index crnti cell_index = Ok (s', r) -> no_stale_slot s'.
Proof.
  intros (Hlen1 & Hlen2 & _) Hfresh. rewrite add_ue_unfold. intros Hadd.
  destruct (crnti =? INVALID_RNTI); [discriminate|].
  destruct (ue_index <? MAX_NOF_UES) eqn:Hidx; [|discriminate].
  destruct (rnti_to_ue_index_map s !! (crnti mod MAX_NOF_UES)) as [slot|] eqn:Hslot;
    [|discriminate].
  destruct (slot <? MAX_NOF_UES); [by simplify_eq|].
  destruct (contains (ue_db s) ue_index) eqn:Hocc; [by simplify_eq|].
  simplify_eq. apply Nat.ltb_lt in Hidx.
  intros k v Hv Hlt. simpl in *. unfold emplace.
  apply list_lookup_insert_Some in Hv as [(<- & <- & _)|(Hne & Hv)].
  - rewrite slot_get_insert_eq by lia. eauto.
  - destruct (Hfresh k v Hv Hlt) as (u & Hu & Hmod).
    exists u. split; [|exact Hmod].
    rewrite slot_get_insert_ne; [exact Hu|].
    intros ->. apply contains_false_slot_get in Hocc. congruence.
Qed.

(** As long as a step erases no entity, it leaves no stale slot behind. *)
Lemma step_no_stale_slot s ev s' :
  well_formed s -> no_stale_slot s ->
  step s ev = Ok s' ->
  (forall i, contains (ue_db s) i = true -> contains (ue_db s') i = true) ->
  no_stale_slot s'.
Proof.
  intros Hwf Hfresh Hstep Hkeep.
  destruct (event_create_or_not ev) as [[msg ->]|Hev].
  - simpl in Hstep.
    apply ue_create_request_cases in Hstep as (s1 & r & Hadd & Hmap & Hsub & Hsame).
    apply (add_ue_no_stale_slot _ _ _ _ _ _ Hwf Hfresh) in Hadd.
    eapply no_stale_slot_preserved; [exact Hmap|exact Hsub| |exact Hadd].
    intros i. by rewrite Hsame.
  - apply step_within in Hstep as [Hmap Hsub]; [|exact Hev].
    by eapply no_stale_slot_preserved.
Qed.

(** An entity of the registry is found through the radio identifier it was
    created with. *)
Lemma find_by_rnti_finds_live_ue s i u :
  reachable s ->
  slot_get (ue_db s) i = Some u ->
  find_by_rnti s (rnti (ue_ctx u)) = Ok (Some (ue_ctx u)).
Proof.
  intros Hreach Hu.
  destruct (reachable_index_consistent s Hreach i u Hu) as (_ & Hvalid & Hmap).
  pose proof (reachable_well_formed s Hreach) as (Hlen & _ & _).
  assert (Hlive : contains (ue_db s) i = true) by (apply contains_slot_get; eauto).
  pose proof (contains_lt _ _ Hlive) as Hlt. rewrite Hlen in Hlt.
  unfold find_by_rnti, mbind, outcome_bind, srsran_assert, array_get.
  apply Nat.eqb_neq in Hvalid. rewrite Hvalid, Hmap. simpl.
  assert (Hne : (i =? MAX_NOF_UES) = false) by (apply Nat.eqb_neq; lia).
  rewrite Hne. unfold find_ue, mbind, outcome_bind, srsran_assert.
  apply Nat.ltb_lt in Hlt. rewrite Hlt, Hlive, Hu. reflexivity.
Qed.

(** What [add_ue] does when neither check fires: the entity is inserted with
    an idle control loop, the reverse index is updated and the handle of the
    new slot is returned. *)
Lemma add_ue_inserts s ue_index crnti cell_index slot :
  crnti <> INVALID_RNTI ->
  ue_index < MAX_NOF_UES ->
  well_formed s ->
  rnti_to_ue_index_map s !! (crnti mod MAX_NOF_UES) = Some slot ->
  MAX_NOF_UES <= slot ->
  contains (ue_db s) ue_index = false ->
  exists s',
    add_ue s ue_index crnti cell_index = Ok (s', Some ue_index) /\
    slot_get (ue_db s') ue_index =
      Some {| ue_ctx := {| du_ue_index := ue_index; rnti := crnti; pcell_idx := cell_index |};
              ctrl_loop := idle_loop |} /\
    rnti_to_ue_index_map s' !! (crnti mod MAX_NOF_UES) = Some ue_index.
Proof.
  intros Hrnti Hidx (Hlen1 & Hlen2 & _) Hslot Hfree Hocc.
  rewrite add_ue_unfold.
  apply Nat.eqb_neq in Hrnti. pose proof Hidx as Hidxb. apply Nat.ltb_lt in Hidxb.
  apply Nat.ltb_ge in Hfree. rewrite Hrnti, Hidxb, Hslot, Hfree, Hocc.
  eexists. split; [reflexivity|]. simpl. split.
  - unfold emplace. rewrite slot_get_insert_eq by lia. reflexivity.
  - apply list_lookup_insert_eq. by apply lookup_lt_is_Some.
Qed.

Lemma run_snoc evs ev : forall s,
  run s (evs ++ [ev]) = (s1 ← run s evs; step s1 ev).
Proof.
  induction evs as [|ev0 evs IH]; intros s; simpl; unfold_outcome.
  - by destruct (step s ev).
  - destruct (step s ev0) as [s0|f]; [|reflexivity]. apply IH.
Qed.

(** When [evs] followed by [ev] runs without a fatal outcome, [ev] is a step
    between the two states. *)
Lemma state_after_step evs ev :
  is_fatal (run mac_ctrl_component_init (evs ++ [ev])) = false ->
  step (state_after evs) ev = Ok (state_after (evs ++ [ev])).
Proof.
  unfold state_after. rewrite run_snoc. unfold_outcome.
  destruct (run mac_ctrl_component_init evs) as [s|f]; [|discriminate].
  by destruct (step s ev).
Qed.

(** [add_ue] returns null as soon as the slot of the identifier holds an
    entity index, whatever has become of that entity. *)
Lemma add_ue_slot_taken s ue_index crnti cell_index v :
  crnti <> INVALID_RNTI ->
  ue_index < MAX_NOF_UES ->
  rnti_to_ue_index_map s !! (crnti mod MAX_NOF_UES) = Some v ->
  v < MAX_NOF_UES ->
  add_ue s ue_index crnti cell_index = Ok (s, None).
Proof.
  intros Hrnti Hidx Hslot Hv. rewrite add_ue_unfold.
  apply Nat.eqb_neq in Hrnti. apply Nat.ltb_lt in Hidx. apply Nat.ltb_lt in Hv.
  by rewrite Hrnti, Hidx, Hslot, Hv.
Qed.

Lemma state_after_reachable evs : reachable (state_after evs).
Proof.
  unfold state_after.
  destruct (run mac_ctrl_component_init evs) as [s|f] eqn:Hrun; [|apply reachable_init].
  eapply run_reachable; [apply reachable_init | exact Hrun].
Qed.

End component_properties.

(** * The component at work *)

Section examples.
#[local] Existing Instance example_constants.

Lemma ue_delete_request_inexistent_ue_witness :
  let s := mac_ctrl_component_init in
  let msg := {| delete_ue_index := 3; delete_rnti := 70 |} in
  exists s',
    ue_delete_request s msg = Ok s' /\
    cfg_notifier s' =
      cfg_notifier s ++
        [on_ue_delete_complete {| delete_resp_ue_index := 3; delete_resp_result := false |}] /\
    ue_db s' = ue_db s /\
    rnti_to_ue_index_map s' = rnti_to_ue_index_map s /\
    main_ctrl_loop s' = main_ctrl_loop s.
Proof.
  intros s msg. apply (ue_delete_request_inexistent_ue s msg).
  vm_compute. reflexivity.
Defined.

Lemma ue_reconfiguration_request_inexistent_ue_witness :
  let s := state_after [ev_ue_create_request
                          {| create_ue_index := 0; create_crnti := 70; create_cell_index := 0 |}] in
  let msg := {| reconf_ue_index := 3; reconf_crnti := 71 |} in
  exists s',
    ue_reconfiguration_request s msg = Ok s' /\
    cfg_notifier s' =
      cfg_notifier s ++
        [on_ue_reconfiguration_complete
           {| reconf_resp_ue_index := 3; reconf_resp_result := false |}] /\
    ue_db s' = ue_db s /\
    rnti_to_ue_index_map s' = rnti_to_ue_index_map s /\
    main_ctrl_loop s' = main_ctrl_loop s.
Proof.
  intros s msg. apply (ue_reconfiguration_request_inexistent_ue s msg).
  vm_compute. reflexivity.
Defined.

Lemma remove_ue_absent_is_noop_witness :
  let s := mac_ctrl_component_init in
  exists s',
    remove_ue s 5 = Ok s' /\
    logger s' = logger s ++ [warning_failed_to_find 5] /\
    main_ctrl_loop s' = main_ctrl_loop s /\
    ue_db s' = ue_db s /\
    rnti_to_ue_index_map s' = rnti_to_ue_index_map s /\
    cfg_notifier s' = cfg_notifier s.
Proof.
  intros s. apply (remove_ue_absent_is_noop s 5).
  - apply Nat.ltb_lt. vm_compute. reflexivity.
  - vm_compute. reflexivity.
Defined.

(** C3 as stated fails outside the contract of [add_ue]: the radio
    identifier of the request is that of the entity at index 0, but its
    entity index is [MAX_NOF_UES]; the assertion of [add_ue] ends the call,
    which neither returns null nor reports a failure. *)
Lemma ue_create_request_conflict_outside_contract :
  let s := state_after [ev_ue_create_request
                          {| create_ue_index := 0; create_crnti := 70; create_cell_index := 0 |}] in
  let msg := {| create_ue_index := MAX_NOF_UES; create_crnti := 70; create_cell_index := 0 |} in
  reachable s /\
  maps_to_live_ue s (create_crnti msg) /\
  add_ue s (create_ue_index msg) (create_crnti msg) (create_cell_index msg)
    = Fatal Invalid_ue_index /\
  ue_create_request s msg = Fatal Invalid_ue_index.
Proof.
  intros s msg. split; [apply state_after_reachable|]. split.
  - exists 0. split; vm_compute; reflexivity.
  - split; vm_compute; reflexivity.
Qed.

Lemma ue_create_request_conflict_rejected_witness :
  let s := state_after [ev_ue_create_request
                          {| create_ue_index := 0; create_crnti := 70; create_cell_index := 0 |}] in
  let msg := {| create_ue_index := 1; create_crnti := 70; create_cell_index := 2 |} in
  add_ue s 1 70 2 = Ok (s, None) /\
  exists s',
    ue_create_request s msg = Ok s' /\
    cfg_notifier s' =
      cfg_notifier s ++
        [on_ue_create_request_complete
           {| create_resp_ue_index := 1; create_resp_cell_index := 2;
              create_resp_result := false |}] /\
    ue_db s' = ue_db s /\
    rnti_to_ue_index_map s' = rnti_to_ue_index_map s /\
    main_ctrl_loop s' = main_ctrl_loop s.
Proof.
  intros s msg. apply (ue_create_request_conflict_rejected s msg).
  - apply state_after_reachable.
  - simpl. discriminate.
  - apply Nat.ltb_lt. vm_compute. reflexivity.
  - left. exists 0. split; vm_compute; reflexivity.
Defined.

(** C4 at work.  UE 0 is created with radio identifier 70, its create
    procedure finishes and [remove_ue] erases it.  The reverse index still
    holds 0 at slot [70 % MAX_NOF_UES]: [add_ue] refuses identifier 70 for the
    free entity index 1 although the registry is empty. *)
Theorem add_ue_rejects_identifier_of_erased_ue :
  let evs := [ev_ue_create_request
                {| create_ue_index := 0; create_crnti := 70; create_cell_index := 0 |};
              ev_procedure_complete 0;
              ev_remove_ue 0] in
  let s := state_after evs in
  is_fatal (run mac_ctrl_component_init evs) = false /\
  ue_db s = replicate MAX_NOF_UES None /\
  ~ maps_to_live_ue s 70 /\
  contains (ue_db s) 1 = false /\
  rnti_to_ue_index_map s !! (70 mod MAX_NOF_UES) = Some 0 /\
  add_ue s 1 70 0 = Ok (s, None).
Proof.
  intros evs s. split; [vm_compute; reflexivity|].
  split; [vm_compute; reflexivity|]. split.
  - intros (ue_index & Hslot & Hlive).
    assert (ue_index = 0) as -> by (vm_compute in Hslot; congruence).
    vm_compute in Hlive. discriminate.
  - split_and!; [vm_compute; reflexivity..|].
    apply (add_ue_slot_taken s 1 70 0 0).
    + simpl. discriminate.
    + apply Nat.ltb_lt. vm_compute. reflexivity.
    + vm_compute. reflexivity.
    + apply Nat.ltb_lt. vm_compute. reflexivity.
Qed.

(** C7 as stated fails on identifiers that agree modulo [MAX_NOF_UES]: the
    only entity was created with identifier 70, none with 1094, and yet
    [find_by_rnti] answers 1094 with the context of that entity. *)
Lemma find_by_rnti_confuses_congruent_identifiers :
  let s := state_after [ev_ue_create_request
                          {| create_ue_index := 0; create_crnti := 70; create_cell_index := 0 |}] in
  reachable s /\
  1094 <> INVALID_RNTI /\
  created_with s 1094 = false /\
  find_by_rnti s 1094 = Ok (Some {| du_ue_index := 0; rnti := 70; pcell_idx := 0 |}).
Proof.
  intros s. split; [apply state_after_reachable|].
  split; [simpl; discriminate|].
  split; vm_compute; reflexivity.
Qed.

(** After the creation of UE 0 with identifier 70 no slot is stale. *)
Lemma no_stale_slot_after_create :
  no_stale_slot
    (state_after [ev_ue_create_request
                    {| create_ue_index := 0; create_crnti := 70; create_cell_index := 0 |}]).
Proof.
  apply (step_no_stale_slot mac_ctrl_component_init
           (ev_ue_create_request
              {| create_ue_index := 0; create_crnti := 70; create_cell_index := 0 |})).
  - apply well_formed_init.
  - apply no_stale_slot_init.
  - apply (state_after_step []). vm_compute. reflexivity.
  - intros i Hi. by rewrite contains_init in Hi.
Qed.

Lemma find_by_rnti_follows_reverse_index_witness :
  let s := state_after [ev_ue_create_request
                          {| create_ue_index := 0; create_crnti := 70; create_cell_index := 0 |}] in
  (exists ue_index,
    rnti_to_ue_index_map s !! (70 mod MAX_NOF_UES) = Some ue_index /\
    (ue_index = MAX_NOF_UES \/ contains (ue_db s) ue_index = false ->
     find_by_rnti s 70 = Ok None) /\
    (forall ctx, find_by_rnti s 70 = Ok (Some ctx) ->
       exists u, ue_index < MAX_NOF_UES /\
         slot_get (ue_db s) ue_index = Some u /\ ctx = ue_ctx u)) /\
  (no_stale_slot s ->
   ((forall i u, slot_get (ue_db s) i = Some u ->
       rnti (ue_ctx u) mod MAX_NOF_UES <> 70 mod MAX_NOF_UES) ->
    find_by_rnti s 70 = Ok None) /\
   (forall ctx, find_by_rnti s 70 = Ok (Some ctx) ->
      rnti ctx mod MAX_NOF_UES = 70 mod MAX_NOF_UES /\
      exists i u, slot_get (ue_db s) i = Some u /\ ctx = ue_ctx u)).
Proof.
  intros s. apply (find_by_rnti_follows_reverse_index s 70).
  - apply state_after_reachable.
  - apply Nat.ltb_lt. vm_compute. reflexivity.
  - simpl. discriminate.
Defined.

(** [remove_ue] called while the create procedure of UE 0 is still running:
    the closure stays suspended in the main control loop, also when the loop
    is resumed early, and erases the entity only after the procedure has
    finished. *)
Lemma remove_ue_deferred_until_drained :
  let create := ev_ue_create_request
                  {| create_ue_index := 0; create_crnti := 70; create_cell_index := 0 |} in
  let s1 := state_after [create; ev_remove_ue 0] in
  let s2 := state_after [create; ev_remove_ue 0; ev_main_ctrl_loop_resume] in
  let s3 := state_after [create; ev_remove_ue 0; ev_procedure_complete 0;
                         ev_main_ctrl_loop_resume] in
  contains (ue_db s1) 0 = true /\ running (main_ctrl_loop s1) = Some 0 /\
  contains (ue_db s2) 0 = true /\ running (main_ctrl_loop s2) = Some 0 /\
  contains (ue_db s3) 0 = false /\ main_ctrl_loop s3 = idle_loop /\
  logger s3 = [debug_scheduling_deletion 0; info_removing 0].
Proof. intros create s1 s2 s3. split_and!; vm_compute; reflexivity. Qed.

Lemma erase_preceded_by_drain_witness :
  let create := ev_ue_create_request
                  {| create_ue_index := 0; create_crnti := 70; create_cell_index := 0 |} in
  let s := state_after [create; ev_procedure_complete 0] in
  let s' := state_after [create; ev_procedure_complete 0; ev_remove_ue 0] in
  ((exists ue_index, ev_remove_ue 0 = ev_remove_ue ue_index) \/
   ev_remove_ue 0 = ev_main_ctrl_loop_resume) /\
  exists u,
    slot_get (ue_db s) 0 = Some u /\
    request_stop_resolved (ctrl_loop u) = true /\
    running (ctrl_loop u) = None /\ queue (ctrl_loop u) = [].
Proof.
  intros create s s'. apply (erase_preceded_by_drain s (ev_remove_ue 0) s' 0).
  - apply (state_after_step [create; ev_procedure_complete 0] (ev_remove_ue 0)).
    vm_compute. reflexivity.
  - vm_compute. reflexivity.
  - vm_compute. reflexivity.
Defined.

Lemma assertions_guard_preconditions_witness :
  let s := mac_ctrl_component_init in
  (forall ue_index crnti cell_index,
      crnti <> INVALID_RNTI -> ue_index < MAX_NOF_UES ->
      is_fatal (add_ue s ue_index crnti cell_index) = false) /\
  (forall ue_index, ue_index < MAX_NOF_UES -> is_fatal (find_ue s ue_index) = false) /\
  (forall r, r <> INVALID_RNTI -> is_fatal (find_by_rnti s r) = false) /\
  (forall ue_index cell_index,
      add_ue s ue_index INVALID_RNTI cell_index = Fatal Invalid_RNTI) /\
  (forall ue_index crnti cell_index,
      crnti <> INVALID_RNTI -> MAX_NOF_UES <= ue_index ->
      add_ue s ue_index crnti cell_index = Fatal Invalid_ue_index) /\
  (forall ue_index, MAX_NOF_UES <= ue_index -> find_ue s ue_index = Fatal Invalid_ue_index) /\
  find_by_rnti s INVALID_RNTI = Fatal Invalid_RNTI.
Proof.
  intros s. apply (assertions_guard_preconditions s).
  - apply reachable_init.
  - apply Nat.ltb_lt. vm_compute. reflexivity.
Defined.

End examples.

(** * Further properties of the MAC control component *)

Section component_coverage.
Context `{!du_constants}.

Lemma ue_create_request_keeps_entities s msg s' i :
  ue_create_request s msg = Ok s' ->
  contains (ue_db s) i = true -> contains (ue_db s') i = true.
Proof.
  intros Hreq Hin.
  apply ue_create_request_cases in Hreq as (s1 & r & Hadd & _ & _ & Hsame).
  rewrite Hsame. eapply add_ue_keeps_entities; eassumption.
Qed.

Lemma add_ue_old_entities s ue_index crnti cell_index s' r i u :
  add_ue s ue_index crnti cell_index = Ok (s', r) ->
  slot_get (ue_db s) i = Some u -> slot_get (ue_db s') i = Some u.
Proof.
  rewrite add_ue_unfold. intros Hadd Hu.
  repeat case_match; simplify_eq; try assumption.
  simpl. unfold emplace. rewrite slot_get_insert_ne; [exact Hu|].
  intros ->.
  match goal with H : contains _ _ = false |- _ => apply contains_false_slot_get in H end.
  congruence.
Qed.

Lemma add_ue_keeps_taken_slots s ue_index crnti cell_index s' r k v :
  add_ue s ue_index crnti cell_index = Ok (s', r) ->
  rnti_to_ue_index_map s !! k = Some v -> v < MAX_NOF_UES ->
  rnti_to_ue_index_map s' !! k = Some v.
Proof.
  rewrite add_ue_unfold. intros Hadd Hk Hv.
  destruct (crnti =? INVALID_RNTI); [discriminate|].
  destruct (ue_index <? MAX_NOF_UES); [|discriminate].
  destruct (rnti_to_ue_index_map s !! (crnti mod MAX_NOF_UES)) as [slot|] eqn:Hslot;
    [|discriminate].
  destruct (slot <? MAX_NOF_UES) eqn:Hfree; [by simplify_eq|].
  destruct (contains (ue_db s) ue_index); [by simplify_eq|].
  simplify_eq. simpl. apply Nat.ltb_ge in Hfree.
  rewrite list_lookup_insert_ne; [exact Hk|].
  intros <-. rewrite Hslot in Hk. simplify_eq. lia.
Qed.

Lemma step_keeps_taken_slots s ev s' k v :
  step s ev = Ok s' ->
  rnti_to_ue_index_map s !! k = Some v -> v < MAX_NOF_UES ->
  rnti_to_ue_index_map s' !! k = Some v.
Proof.
  intros Hstep Hk Hv.
  destruct (event_create_or_not ev) as [[msg ->]|Hev].
  - simpl in Hstep.
    apply ue_create_request_cases in Hstep as (s1 & r & Hadd & -> & _ & _).
    eapply add_ue_keeps_taken_slots; eassumption.
  - apply step_within in Hstep as [-> _]; assumption.
Qed.

(** X1.  In every reachable state the registry and the reverse index have
    [MAX_NOF_UES] entries each, the reverse index holds nothing but entity
    indexes below [MAX_NOF_UES] and the mark [MAX_NOF_UES], and every
    registered entity sits at an index below [MAX_NOF_UES]. *)
Theorem registry_tables_keep_shape (s : mac_ctrl_component) :
  reachable s ->
  length (ue_db s) = MAX_NOF_UES /\
  length (rnti_to_ue_index_map s) = MAX_NOF_UES /\
  (forall k v, rnti_to_ue_index_map s !! k = Some v -> v <= MAX_NOF_UES) /\
  (forall i, contains (ue_db s) i = true -> i < MAX_NOF_UES).
Proof.
  intros Hreach. destruct (reachable_well_formed s Hreach) as (Hlen1 & Hlen2 & Hle).
  split_and!; try assumption.
  intros i Hin. apply contains_lt in Hin. lia.
Qed.

(** X2.  For a valid entity index and a valid radio identifier, [add_ue]
    returns; it returns null exactly when the slot of the identifier in the
    reverse index holds an entity index or the entity index is occupied, and
    then the component is left untouched; otherwise the handle is that of
    the slot [ue_index]. *)
Theorem add_ue_returns_null_iff
    (s : mac_ctrl_component) (ue_index crnti cell_index : nat) :
  reachable s ->
  crnti <> INVALID_RNTI ->
  ue_index < MAX_NOF_UES ->
  exists s' r,
    add_ue s ue_index crnti cell_index = Ok (s', r) /\
    (r = None <->
       (exists v, rnti_to_ue_index_map s !! (crnti mod MAX_NOF_UES) = Some v /\
                  v < MAX_NOF_UES) \/
       contains (ue_db s) ue_index = true) /\
    (r = None -> s' = s) /\
    (r <> None -> r = Some ue_index).
Proof.
  intros Hreach Hrnti Hidx.
  pose proof (reachable_well_formed s Hreach) as Hwf.
  destruct (reverse_index_lookup s crnti Hwf) as (slot & Hslot & _); [lia|].
  rewrite add_ue_unfold.
  apply Nat.eqb_neq in Hrnti. apply Nat.ltb_lt in Hidx. rewrite Hrnti, Hidx, Hslot.
  destruct (slot <? MAX_NOF_UES) eqn:Hfree.
  - apply Nat.ltb_lt in Hfree. do 2 eexists. split; [reflexivity|].
    split_and!; [|done..]. split; [eauto|done].
  - apply Nat.ltb_ge in Hfree.
    destruct (contains (ue_db s) ue_index) eqn:Hocc.
    + do 2 eexists. split; [reflexivity|]. split_and!; [|done..]. split; [eauto|done].
    + do 2 eexists. split; [reflexivity|]. split_and!; [|done..].
      split; [done|]. intros [(v & Hv & Hlt)|?]; [|done]. simplify_eq. lia.
Qed.

Lemma ue_create_request_success_state s msg :
  create_crnti msg <> INVALID_RNTI ->
  create_ue_index msg < MAX_NOF_UES ->
  rnti_to_ue_index_map s !! (create_crnti msg mod MAX_NOF_UES) = Some MAX_NOF_UES ->
  contains (ue_db s) (create_ue_index msg) = false ->
  create_ue_index msg < length (ue_db s) ->
  ue_create_request s msg =
    Ok {| ue_db :=
            <[create_ue_index msg :=
                Some {| ue_ctx := {| du_ue_index := create_ue_index msg;
                                     rnti := create_crnti msg;
                                     pcell_idx := create_cell_index msg |};
                        ctrl_loop := {| running := Some (mac_ue_create_request_procedure msg);
                                        queue := [] |} |}]> (ue_db s);
          rnti_to_ue_index_map :=
            <[create_crnti msg mod MAX_NOF_UES := create_ue_index msg]>
              (rnti_to_ue_index_map s);
          main_ctrl_loop := main_ctrl_loop s;
          cfg_notifier := cfg_notifier s;
          logger := logger s |}.
Proof.
  intros Hrnti Hidx Hslot Hfree Hlen.
  unfold ue_create_request. unfold_outcome. rewrite add_ue_unfold.
  apply Nat.eqb_neq in Hrnti. apply Nat.ltb_lt in Hidx.
  rewrite Hrnti, Hidx, Hslot, Nat.ltb_irrefl, Hfree.
  unfold set_ue_db, set_rnti_to_ue_index_map, schedule_on_ue, emplace. simpl.
  rewrite list_lookup_insert_eq by exact Hlen.
  by rewrite list_insert_insert_eq.
Qed.

Lemma find_ue_registered s i u :
  i < MAX_NOF_UES ->
  slot_get (ue_db s) i = Some u ->
  find_ue s i = Ok (Some (ue_ctx u)).
Proof.
  intros Hlt Hu.
  assert (Hin : contains (ue_db s) i = true) by (apply contains_slot_get; eauto).
  unfold find_ue. unfold_outcome. apply Nat.ltb_lt in Hlt. by rewrite Hlt, Hin, Hu.
Qed.

(** X3.  A create request with valid index and identifier, a free slot in
    the reverse index and a free entity index registers the entity with the
    context of the request, starts the create procedure on its control loop,
    maps the slot of the identifier to the entity index and delivers nothing
    to the notifier; no other entity and no other slot is touched. *)
Theorem ue_create_request_registers
    (s : mac_ctrl_component) (msg : mac_ue_create_request_message) :
  reachable s ->
  create_crnti msg <> INVALID_RNTI ->
  create_ue_index msg < MAX_NOF_UES ->
  rnti_to_ue_index_map s !! (create_crnti msg mod MAX_NOF_UES) = Some MAX_NOF_UES ->
  contains (ue_db s) (create_ue_index msg) = false ->
  exists s',
    ue_create_request s msg = Ok s' /\
    slot_get (ue_db s') (create_ue_index msg) =
      Some {| ue_ctx := {| du_ue_index := create_ue_index msg;
                           rnti := create_crnti msg;
                           pcell_idx := create_cell_index msg |};
              ctrl_loop := {| running := Some (mac_ue_create_request_procedure msg);
                              queue := [] |} |} /\
    rnti_to_ue_index_map s' !! (create_crnti msg mod MAX_NOF_UES)
      = Some (create_ue_index msg) /\
    cfg_notifier s' = cfg_notifier s /\
    logger s' = logger s /\
    main_ctrl_loop s' = main_ctrl_loop s /\
    (forall j, j <> create_ue_index msg -> slot_get (ue_db s') j = slot_get (ue_db s) j) /\
    (forall k, k <> create_crnti msg mod MAX_NOF_UES ->
       rnti_to_ue_index_map s' !! k = rnti_to_ue_index_map s !! k).
Proof.
  intros Hreach Hrnti Hidx Hslot Hfree.
  destruct (reachable_well_formed s Hreach) as (Hlen1 & Hlen2 & _).
  rewrite (ue_create_request_success_state s msg) by (assumption || lia).
  eexists. split; [reflexivity|]. simpl. split_and!; try reflexivity.
  - rewrite slot_get_insert_eq by lia. reflexivity.
  - apply list_lookup_insert_eq. by apply lookup_lt_is_Some.
  - intros j Hj. by apply slot_get_insert_ne.
  - intros k Hk. apply list_lookup_insert_ne. congruence.
Qed.

(** X4.  In every reachable state a registered entity is returned by
    [find_ue] at its index and by [find_by_rnti] at the radio identifier it
    was created with; its context records that index and a valid
    identifier. *)
Theorem registered_ue_is_found (s : mac_ctrl_component) (i : nat) (u : ue_element) :
  reachable s ->
  slot_get (ue_db s) i = Some u ->
  find_ue s i = Ok (Some (ue_ctx u)) /\
  find_by_rnti s (rnti (ue_ctx u)) = Ok (Some (ue_ctx u)) /\
  du_ue_index (ue_ctx u) = i /\
  rnti (ue_ctx u) <> INVALID_RNTI.
Proof.
  intros Hreach Hu.
  destruct (reachable_index_consistent s Hreach i u Hu) as (Hi & Hvalid & _).
  destruct (reachable_well_formed s Hreach) as (Hlen & _ & _).
  assert (Hin : contains (ue_db s) i = true) by (apply contains_slot_get; eauto).
  pose proof (contains_lt _ _ Hin) as Hlt. rewrite Hlen in Hlt. apply Nat.ltb_lt in Hlt.
  split_and!; try assumption.
  - apply find_ue_registered; [by apply Nat.ltb_lt | exact Hu].
  - by apply (find_by_rnti_finds_live_ue s i).
Qed.

(** X5.  In every reachable state two registered entities never share a slot
    of the reverse index: entities whose radio identifiers agree modulo
    [MAX_NOF_UES], in particular entities with the same identifier, are the
    same entity. *)
Theorem registered_identifiers_are_distinct
    (s : mac_ctrl_component) (i j : nat) (ui uj : ue_element) :
  reachable s ->
  slot_get (ue_db s) i = Some ui ->
  slot_get (ue_db s) j = Some uj ->
  rnti (ue_ctx ui) mod MAX_NOF_UES = rnti (ue_ctx uj) mod MAX_NOF_UES ->
  i = j.
Proof.
  intros Hreach Hi Hj Hmod.
  destruct (reachable_index_consistent s Hreach i ui Hi) as (_ & _ & Hmi).
  destruct (reachable_index_consistent s Hreach j uj Hj) as (_ & _ & Hmj).
  rewrite Hmod in Hmi. congruence.
Qed.

(** X6.  No step changes the context of an entity that stays registered: its
    entity index, radio identifier and cell are those it was created with. *)
Theorem step_keeps_ue_context
    (s : mac_ctrl_component) (ev : event) (s' : mac_ctrl_component)
    (i : nat) (u u' : ue_element) :
  step s ev = Ok s' ->
  slot_get (ue_db s) i = Some u ->
  slot_get (ue_db s') i = Some u' ->
  ue_ctx u' = ue_ctx u.
Proof.
  intros Hstep Hu Hu'.
  destruct (event_create_or_not ev) as [[msg ->]|Hev].
  - simpl in Hstep.
    apply ue_create_request_cases in Hstep as (s1 & r & Hadd & _ & Hsub & _).
    destruct (Hsub i u' Hu') as (u1 & Hu1 & Hctx).
    rewrite (add_ue_old_entities _ _ _ _ _ _ _ _ Hadd Hu) in Hu1. congruence.
  - apply step_within in Hstep as [_ Hsub]; [|exact Hev].
    destruct (Hsub i u' Hu') as (u1 & Hu1 & Hctx). congruence.
Qed.

Lemma run_keeps_taken_slots evs : forall s s' k v,
  run s evs = Ok s' ->
  rnti_to_ue_index_map s !! k = Some v -> v < MAX_NOF_UES ->
  rnti_to_ue_index_map s' !! k = Some v.
Proof.
  induction evs as [|ev evs IH]; intros s s' k v; simpl.
  - by intros [= <-].
  - unfold_outcome. destruct (step s ev) as [s1|f] eqn:Hstep; [|discriminate].
    intros Hrun Hk Hv. eapply IH; [exact Hrun| |exact Hv].
    eapply step_keeps_taken_slots; eassumption.
Qed.

(** X7.  A slot of the reverse index that holds an entity index keeps it
    through every run of the component, the erasure of the entity included;
    [add_ue] therefore returns null for every identifier of that slot from
    then on. *)
Theorem reverse_index_slot_is_never_released
    (s : mac_ctrl_component) (evs : list event) (s' : mac_ctrl_component) (k v : nat) :
  run s evs = Ok s' ->
  rnti_to_ue_index_map s !! k = Some v ->
  v < MAX_NOF_UES ->
  rnti_to_ue_index_map s' !! k = Some v /\
  (forall ue_index crnti cell_index,
      crnti <> INVALID_RNTI -> ue_index < MAX_NOF_UES -> crnti mod MAX_NOF_UES = k ->
      add_ue s' ue_index crnti cell_index = Ok (s', None)).
Proof.
  intros Hrun Hk Hv.
  pose proof (run_keeps_taken_slots evs s s' k v Hrun Hk Hv) as Hk'.
  split; [exact Hk'|].
  intros ue_index crnti cell_index Hrnti Hidx <-.
  by apply (add_ue_slot_taken s' ue_index crnti cell_index v).
Qed.

(** X8.  Once a step has taken an entity out of the registry, [find_ue] at
    its index and [find_by_rnti] at its radio identifier both return null. *)
Theorem erased_ue_is_not_found
    (s : mac_ctrl_component) (ev : event) (s' : mac_ctrl_component)
    (i : nat) (u : ue_element) :
  reachable s ->
  step s ev = Ok s' ->
  slot_get (ue_db s) i = Some u ->
  contains (ue_db s') i = false ->
  find_ue s' i = Ok None /\
  find_by_rnti s' (rnti (ue_ctx u)) = Ok None.
Proof.
  intros Hreach Hstep Hu Hgone.
  destruct (reachable_index_consistent s Hreach i u Hu) as (_ & Hvalid & Hslot).
  destruct (reachable_well_formed s Hreach) as (Hlen & _ & _).
  assert (Hin : contains (ue_db s) i = true) by (apply contains_slot_get; eauto).
  pose proof (contains_lt _ _ Hin) as Hlt. rewrite Hlen in Hlt.
  assert (Hmap : rnti_to_ue_index_map s' = rnti_to_ue_index_map s).
  { destruct (event_create_or_not ev) as [[msg ->]|Hev].
    - simpl in Hstep. apply (ue_create_request_keeps_entities _ _ _ i) in Hstep; congruence.
    - by apply step_within in Hstep as [-> _]. }
  split.
  - unfold find_ue. unfold_outcome.
    pose proof Hlt as Hltb. apply Nat.ltb_lt in Hltb. by rewrite Hltb, Hgone.
  - rewrite (find_by_rnti_unfold s' _ i Hvalid); [|by rewrite Hmap|lia].
    assert (Hne : (i =? MAX_NOF_UES) = false) by (apply Nat.eqb_neq; lia).
    rewrite Hne. apply contains_false_slot_get in Hgone. by rewrite Hgone.
Qed.

Lemma tasks_schedule {T} (p : T) (loop : async_task_sequencer T) :
  length (tasks (schedule p loop)) = S (length (tasks loop)) /\ p ∈ tasks (schedule p loop).
Proof.
  unfold tasks, schedule. destruct (running loop) as [r|]; simpl.
  - rewrite length_app. simpl. split; [lia|].
    apply elem_of_cons. right. apply elem_of_app. right. by apply list_elem_of_singleton.
  - split; [reflexivity|]. apply elem_of_cons. by left.
Qed.

Lemma schedule_on_ue_registered p idx db u :
  slot_get db idx = Some u ->
  slot_get (schedule_on_ue p idx db) idx =
    Some {| ue_ctx := ue_ctx u; ctrl_loop := schedule p (ctrl_loop u) |} /\
  (forall j, j <> idx -> slot_get (schedule_on_ue p idx db) j = slot_get db j).
Proof.
  intros Hu. unfold schedule_on_ue.
  assert (Hraw : db !! idx = Some (Some u)).
  { unfold slot_get in Hu. by destruct (db !! idx) as [[x|]|]; simplify_eq. }
  rewrite Hraw. split.
  - rewrite slot_get_insert_eq; [reflexivity|]. apply lookup_lt_is_Some; eauto.
  - intros j Hj. by apply slot_get_insert_ne.
Qed.

(** X9.  A delete request for a registered entity delivers nothing to the
    notifier: it puts the delete procedure on the control loop of that entity,
    which then holds exactly one task more; the context of the entity, every
    other entity, the reverse index and the main control loop are
    unchanged. *)
Theorem ue_delete_request_schedules_procedure
    (s : mac_ctrl_component) (msg : mac_ue_delete_request_message) (u : ue_element) :
  slot_get (ue_db s) (delete_ue_index msg) = Some u ->
  exists s' u',
    ue_delete_request s msg = Ok s' /\
    slot_get (ue_db s') (delete_ue_index msg) = Some u' /\
    ue_ctx u' = ue_ctx u /\
    ctrl_loop u' = schedule (mac_ue_delete_procedure msg) (ctrl_loop u) /\
    length (tasks (ctrl_loop u')) = S (length (tasks (ctrl_loop u))) /\
    mac_ue_delete_procedure msg ∈ tasks (ctrl_loop u') /\
    (forall j, j <> delete_ue_index msg -> slot_get (ue_db s') j = slot_get (ue_db s) j) /\
    cfg_notifier s' = cfg_notifier s /\
    logger s' = logger s /\
    rnti_to_ue_index_map s' = rnti_to_ue_index_map s /\
    main_ctrl_loop s' = main_ctrl_loop s.
Proof.
  intros Hu.
  assert (Hin : contains (ue_db s) (delete_ue_index msg) = true)
    by (apply contains_slot_get; eauto).
  unfold ue_delete_request. rewrite Hin. simpl.
  destruct (schedule_on_ue_registered (mac_ue_delete_procedure msg) _ _ _ Hu) as [Hnew Hother].
  destruct (tasks_schedule (mac_ue_delete_procedure msg) (ctrl_loop u)) as [Hlen Hlast].
  do 2 eexists. split; [reflexivity|]. simpl. split; [exact Hnew|].
  split_and!; try reflexivity; assumption.
Qed.

(** X10.  A reconfiguration request for a registered entity delivers nothing
    to the notifier: it puts the reconfiguration procedure on the control
    loop of that entity, which then holds exactly one task more; the context
    of the entity, every other entity, the reverse index and the main control
    loop are unchanged. *)
Theorem ue_reconfiguration_request_schedules_procedure
    (s : mac_ctrl_component) (msg : mac_ue_reconfiguration_request_message)
    (u : ue_element) :
  slot_get (ue_db s) (reconf_ue_index msg) = Some u ->
  exists s' u',
    ue_reconfiguration_request s msg = Ok s' /\
    slot_get (ue_db s') (reconf_ue_index msg) = Some u' /\
    ue_ctx u' = ue_ctx u /\
    ctrl_loop u' = schedule (mac_ue_reconfiguration_procedure msg) (ctrl_loop u) /\
    length (tasks (ctrl_loop u')) = S (length (tasks (ctrl_loop u))) /\
    mac_ue_reconfiguration_procedure msg ∈ tasks (ctrl_loop u') /\
    (forall j, j <> reconf_ue_index msg -> slot_get (ue_db s') j = slot_get (ue_db s) j) /\
    cfg_notifier s' = cfg_notifier s /\
    logger s' = logger s /\
    rnti_to_ue_index_map s' = rnti_to_ue_index_map s /\
    main_ctrl_loop s' = main_ctrl_loop s.
Proof.
  intros Hu.
  assert (Hin : contains (ue_db s) (reconf_ue_index msg) = true)
    by (apply contains_slot_get; eauto).
  unfold ue_reconfiguration_request. rewrite Hin. simpl.
  destruct (schedule_on_ue_registered (mac_ue_reconfiguration_procedure msg) _ _ _ Hu)
    as [Hnew Hother].
  destruct (tasks_schedule (mac_ue_reconfiguration_procedure msg) (ctrl_loop u))
    as [Hlen Hlast].
  do 2 eexists. split; [reflexivity|]. simpl. split; [exact Hnew|].
  split_and!; try reflexivity; assumption.
Qed.


Lemma main_ctrl_loop_run_keeps_notifier q : forall s s',
  main_ctrl_loop_run s q = Ok s' -> cfg_notifier s' = cfg_notifier s.
Proof.
  induction q as [|ue_index q IH]; intros s s'; simpl.
  - by intros [= <-].
  - unfold_outcome.
    destruct (removal_closure_begin s ue_index) as [[s1 st]|f] eqn:Hbegin; [|discriminate].
    apply removal_closure_begin_cases in Hbegin as (u & _ & [(-> & -> & _)|(-> & -> & _)]).
    + by intros [= <-].
    + intros Hrun. by apply IH in Hrun as ->.
Qed.

Lemma step_notifies_failure_only s ev s' :
  step s ev = Ok s' ->
  exists ns,
    cfg_notifier s' = cfg_notifier s ++ ns /\
    length ns <= 1 /\
    Forall (fun n => notification_result n = false) ns.
Proof.
  assert (Hnone : forall l : list notification, exists ns,
             l = l ++ ns /\ length ns <= 1 /\
             Forall (fun n => notification_result n = false) ns).
  { intros l. exists []. rewrite app_nil_r. split_and!; [done|simpl; lia|constructor]. }
  assert (Hone : forall (l : list notification) n, notification_result n = false ->
             exists ns, l ++ [n] = l ++ ns /\ length ns <= 1 /\
             Forall (fun n => notification_result n = false) ns).
  { intros l n Hn. exists [n]. split_and!; [done|simpl; lia|]. by constructor. }
  destruct ev as [msg|msg|msg|ue_index|ue_index|]; simpl; intros Hstep.
  - unfold ue_create_request in Hstep. unfold_outcome in Hstep.
    rewrite add_ue_unfold in Hstep.
    repeat case_match; simplify_eq; simpl; first [apply Hnone | by apply Hone].
  - unfold ue_delete_request in Hstep. case_match; simplify_eq; simpl; [|apply Hnone].
    by apply Hone.
  - unfold ue_reconfiguration_request in Hstep.
    case_match; simplify_eq; simpl; [|apply Hnone]. by apply Hone.
  - unfold remove_ue, main_ctrl_loop_schedule in Hstep. unfold_outcome in Hstep.
    destruct (ue_index <? MAX_NOF_UES); [|discriminate].
    destruct (negb (contains (ue_db s) ue_index)); simpl in Hstep;
      [simplify_eq; apply Hnone|].
    destruct (running (main_ctrl_loop s)); [simplify_eq; apply Hnone|].
    apply main_ctrl_loop_run_keeps_notifier in Hstep as ->. apply Hnone.
  - simplify_eq. unfold procedure_complete. repeat case_match; apply Hnone.
  - unfold main_ctrl_loop_resume in Hstep.
    destruct (running (main_ctrl_loop s)) as [ue_index|]; [|simplify_eq; apply Hnone].
    destruct (slot_get (ue_db s) ue_index) as [u|]; [|discriminate].
    destruct (request_stop_resolved (ctrl_loop u)); [|simplify_eq; apply Hnone].
    apply main_ctrl_loop_run_keeps_notifier in Hstep as ->. apply Hnone.
Qed.

(** X12.  Whatever the component runs through, the calls already made on the
    notifier stay as they are; each event adds at most one call, and every
    call the component itself makes reports [result = false]. *)
Theorem run_notifies_failures_only
    (s : mac_ctrl_component) (evs : list event) (s' : mac_ctrl_component) :
  run s evs = Ok s' ->
  exists ns,
    cfg_notifier s' = cfg_notifier s ++ ns /\
    length ns <= length evs /\
    Forall (fun n => notification_result n = false) ns.
Proof.
  revert s. induction evs as [|ev evs IH]; intros s; simpl.
  - intros [= <-]. exists []. rewrite app_nil_r. split_and!; [done|simpl; lia|constructor].
  - unfold_outcome. destruct (step s ev) as [s1|f] eqn:Hstep; [|discriminate].
    intros Hrun.
    destruct (step_notifies_failure_only _ _ _ Hstep) as (ns1 & E1 & Hl1 & Hf1).
    destruct (IH _ Hrun) as (ns2 & E2 & Hl2 & Hf2).
    exists (ns1 ++ ns2). split_and!.
    + by rewrite E2, E1, app_assoc.
    + rewrite length_app. lia.
    + by apply Forall_app.
Qed.

(** X13.  A component fresh from its constructor holds no entity: [find_ue]
    and [find_by_rnti] return null for every valid argument; a create request
    with a valid entity index and a valid radio identifier is then accepted,
    without any call on the notifier, and both lookups return the context of
    the request. *)
Theorem first_create_request_is_accepted (msg : mac_ue_create_request_message) :
  create_crnti msg <> INVALID_RNTI ->
  create_ue_index msg < MAX_NOF_UES ->
  let ctx := {| du_ue_index := create_ue_index msg;
                rnti := create_crnti msg;
                pcell_idx := create_cell_index msg |} in
  find_ue mac_ctrl_component_init (create_ue_index msg) = Ok None /\
  find_by_rnti mac_ctrl_component_init (create_crnti msg) = Ok None /\
  exists s',
    ue_create_request mac_ctrl_component_init msg = Ok s' /\
    cfg_notifier s' = [] /\
    find_ue s' (create_ue_index msg) = Ok (Some ctx) /\
    find_by_rnti s' (create_crnti msg) = Ok (Some ctx).
Proof.
  intros Hrnti Hidx ctx.
  assert (Hslot : rnti_to_ue_index_map mac_ctrl_component_init
                    !! (create_crnti msg mod MAX_NOF_UES) = Some MAX_NOF_UES).
  { simpl. apply lookup_replicate. split; [reflexivity|].
    apply Nat.mod_upper_bound. lia. }
  split_and!.
  - unfold find_ue. unfold_outcome. pose proof Hidx as Hidxb. apply Nat.ltb_lt in Hidxb.
    by rewrite Hidxb, contains_init.
  - rewrite (find_by_rnti_unfold _ _ MAX_NOF_UES Hrnti Hslot) by lia.
    by rewrite Nat.eqb_refl.
  - pose proof (ue_create_request_success_state mac_ctrl_component_init msg
                  Hrnti Hidx Hslot (contains_init _)) as Hreq.
    rewrite Hreq by (simpl; rewrite length_replicate; exact Hidx).
    eexists. split; [reflexivity|]. split; [reflexivity|].
    match goal with |- find_ue ?st _ = _ /\ _ => set (s' := st) end.
    assert (Hreach : reachable s').
    { apply (reachable_step mac_ctrl_component_init (ev_ue_create_request msg));
        [apply reachable_init|]. simpl. rewrite Hreq; [reflexivity|].
      simpl. rewrite length_replicate. exact Hidx. }
    assert (Hu : slot_get (ue_db s') (create_ue_index msg) =
                 Some {| ue_ctx := ctx;
                         ctrl_loop := {| running := Some (mac_ue_create_request_procedure msg);
                                         queue := [] |} |}).
    { subst s'. simpl. rewrite slot_get_insert_eq; [reflexivity|].
      rewrite length_replicate. exact Hidx. }
    split.
    + by apply (find_ue_registered s' _ _ Hidx Hu).
    + by apply (find_by_rnti_finds_live_ue s' _ _ Hreach Hu).
Qed.

Lemma main_ctrl_loop_run_sound q : forall s s',
  main_ctrl_loop_run s q = Ok s' -> loop_sound (main_ctrl_loop s').
Proof.
  induction q as [|ue_index q IH]; intros s s'; simpl.
  - by intros [= <-].
  - unfold_outcome.
    destruct (removal_closure_begin s ue_index) as [[s1 [|]]|f]; [| |discriminate].
    + by intros [= <-].
    + apply IH.
Qed.

Lemma step_main_loop_sound s ev s' :
  loop_sound (main_ctrl_loop s) -> step s ev = Ok s' -> loop_sound (main_ctrl_loop s').
Proof.
  intros Hsound. destruct ev as [msg|msg|msg|ue_index|ue_index|]; simpl; intros Hstep.
  - unfold ue_create_request in Hstep. unfold_outcome in Hstep.
    rewrite add_ue_unfold in Hstep. by repeat case_match; simplify_eq.
  - unfold ue_delete_request in Hstep. by case_match; simplify_eq.
  - unfold ue_reconfiguration_request in Hstep. by case_match; simplify_eq.
  - unfold remove_ue, main_ctrl_loop_schedule in Hstep. unfold_outcome in Hstep.
    destruct (ue_index <? MAX_NOF_UES); [|discriminate].
    destruct (negb (contains (ue_db s) ue_index)); simpl in Hstep; [by simplify_eq|].
    destruct (running (main_ctrl_loop s)) as [c|] eqn:Hc.
    + simplify_eq. unfold loop_sound, schedule. simpl. by rewrite Hc.
    + by apply main_ctrl_loop_run_sound in Hstep.
  - simplify_eq. unfold procedure_complete. by repeat case_match.
  - unfold main_ctrl_loop_resume in Hstep.
    destruct (running (main_ctrl_loop s)) as [c|]; [|by simplify_eq].
    destruct (slot_get (ue_db s) c) as [u|]; [|discriminate].
    destruct (request_stop_resolved (ctrl_loop u)); [|by simplify_eq].
    by apply main_ctrl_loop_run_sound in Hstep.
Qed.

Lemma reachable_main_loop_sound s : reachable s -> loop_sound (main_ctrl_loop s).
Proof.
  induction 1 as [|s ev s' _ IH Hstep]; [done|].
  eapply step_main_loop_sound; eassumption.
Qed.

(** X18.  [remove_ue] for a registered entity whose control loop still has a
    task does not erase it: the call returns with the entity as it was, the
    debug line in the log and the closure held by the main control loop,
    which is then not idle. *)
Theorem remove_ue_of_busy_ue_is_deferred
    (s : mac_ctrl_component) (i : nat) (u : ue_element) :
  reachable s ->
  i < MAX_NOF_UES ->
  slot_get (ue_db s) i = Some u ->
  drained (ctrl_loop u) = false ->
  exists s',
    remove_ue s i = Ok s' /\
    ue_db s' = ue_db s /\
    i ∈ tasks (main_ctrl_loop s') /\
    running (main_ctrl_loop s') <> None /\
    logger s' = logger s ++ [debug_scheduling_deletion i] /\
    rnti_to_ue_index_map s' = rnti_to_ue_index_map s /\
    cfg_notifier s' = cfg_notifier s.
Proof.
  intros Hreach Hidx Hu Hbusy.
  pose proof (reachable_main_loop_sound s Hreach) as Hsound.
  assert (Hin : contains (ue_db s) i = true) by (apply contains_slot_get; eauto).
  apply Nat.ltb_lt in Hidx.
  unfold remove_ue, main_ctrl_loop_schedule. unfold_outcome. rewrite Hidx, Hin. simpl.
  destruct (running (main_ctrl_loop s)) as [c|] eqn:Hc.
  - eexists. split; [reflexivity|]. unfold schedule, tasks. simpl. rewrite Hc. simpl.
    split_and!; try done.
    apply elem_of_cons. right. apply elem_of_app. right. by apply list_elem_of_singleton.
  - rewrite (Hsound Hc). simpl. unfold_outcome.
    unfold removal_closure_begin. unfold_outcome. simpl.
    unfold request_stop_resolved. rewrite Hin, Hu, Hbusy.
    eexists. split; [reflexivity|]. unfold tasks. simpl. split_and!; try done.
    apply elem_of_cons. by left.
Qed.

Lemma run_app evs1 evs2 : forall s,
  run s (evs1 ++ evs2) = (s1 ← run s evs1; run s1 evs2).
Proof.
  induction evs1 as [|ev evs1 IH]; intros s; simpl; unfold_outcome.
  - by destruct (run s evs2).
  - destruct (step s ev) as [s0|f]; [|reflexivity]. apply IH.
Qed.

(** When [evs1] followed by [evs2] runs without a fatal outcome, [evs2] leads
    from the state after [evs1] to the state after both. *)
Lemma state_after_run evs1 evs2 :
  is_fatal (run mac_ctrl_component_init (evs1 ++ evs2)) = false ->
  run (state_after evs1) evs2 = Ok (state_after (evs1 ++ evs2)).
Proof.
  unfold state_after. rewrite run_app. unfold_outcome.
  destruct (run mac_ctrl_component_init evs1) as [s|f]; [|discriminate].
  by destruct (run s evs2).
Qed.

End component_coverage.

(** * Properties of the RLC configuration helpers *)

Lemma shl_int_one n :
  (0 <= n <= 31)%Z -> to_uint32 <$> shl_int 1 n = Some (2 ^ n)%Z.
Proof.
  intros Hn. unfold shl_int. rewrite Z.shiftl_1_l.
  assert (Hpow : (0 < 2 ^ n <= 2 ^ 31)%Z).
  { split; [apply Z.pow_pos_nonneg; lia|]. apply Z.pow_le_mono_r; lia. }
  assert (H1 : (0 <=? n)%Z = true) by (apply Z.leb_le; lia).
  assert (H2 : (n <? 32)%Z = true) by (apply Z.ltb_lt; lia).
  assert (H3 : (2 ^ n <? 2 ^ 32)%Z = true) by (apply Z.ltb_lt; lia).
  rewrite H1, H2, H3. simpl. f_equal. unfold to_uint32.
  rewrite Zminus_mod_idemp_l.
  replace (2 ^ n + 2 ^ 31 - 2 ^ 31)%Z with (2 ^ n)%Z by lia.
  apply Z.mod_small. lia.
Qed.

Lemma shl_int_out_of_range a n : (32 <= n)%Z -> shl_int a n = None.
Proof.
  intros Hn. unfold shl_int.
  assert (H2 : (n <? 32)%Z = false) by (apply Z.ltb_ge; lia).
  rewrite H2. by rewrite andb_false_r.
Qed.

(** X14.  For a sequence-number length that fits [uint16_t], [cardinality]
    is [2 ^ sn_size] up to a length of 31 bits and undefined (a shift beyond
    the width of [int]) above; [window_size] is [2 ^ (sn_size - 1)] for
    lengths from 1 to 32 and undefined otherwise: for length 0 the
    subtraction wraps to a shift by 65535. *)
Theorem cardinality_and_window_size_values (sn_size : Z) :
  (0 <= sn_size < 65536)%Z ->
  cardinality sn_size = (if (sn_size <=? 31)%Z then Some (2 ^ sn_size)%Z else None) /\
  window_size sn_size =
    (if (1 <=? sn_size)%Z && (sn_size <=? 32)%Z then Some (2 ^ (sn_size - 1))%Z else None).
Proof.
  intros Hrange. split.
  - unfold cardinality. destruct (sn_size <=? 31)%Z eqn:Hle.
    + apply Z.leb_le in Hle. apply shl_int_one. lia.
    + apply Z.leb_gt in Hle. rewrite shl_int_out_of_range by lia. reflexivity.
  - unfold window_size, cardinality, to_uint16.
    destruct (1 <=? sn_size)%Z eqn:Hpos; simpl.
    + apply Z.leb_le in Hpos. rewrite Z.mod_small by lia.
      destruct (sn_size <=? 32)%Z eqn:Hle.
      * apply Z.leb_le in Hle. apply shl_int_one. lia.
      * apply Z.leb_gt in Hle. rewrite shl_int_out_of_range by lia. reflexivity.
    + apply Z.leb_gt in Hpos. assert (sn_size = 0)%Z as -> by lia. reflexivity.
Qed.

Lemma cardinality_and_window_size_values_witness :
  cardinality 12 = Some 4096%Z /\ window_size 12 = Some 2048%Z.
Proof.
  apply (cardinality_and_window_size_values 12). lia.
Defined.

(** X15.  For every sequence-number length that RLC UM and RLC AM offer, the
    window is defined and is half of the cardinality: 32 and 2048 for UM,
    2048 and 131072 for AM. *)
Theorem sn_size_window_is_half_cardinality :
  (forall sn : rlc_um_sn_size,
      exists w, window_size (to_number sn) = Some w /\
                cardinality (to_number sn) = Some (2 * w)%Z /\
                w = match sn with um_size6bits => 32 | um_size12bits => 2048 end%Z) /\
  (forall sn : rlc_am_sn_size,
      exists w, window_size (to_number sn) = Some w /\
                cardinality (to_number sn) = Some (2 * w)%Z /\
                w = match sn with am_size12bits => 2048 | am_size18bits => 131072 end%Z).
Proof.
  split; intros []; eexists; split_and!; reflexivity.
Qed.

(** X16.  [to_string] reads inside its table for every enumerator of
    [rlc_mode], [rlc_dc_field], [rlc_si_field] and [rlc_control_pdu_type],
    and within each of the first three enumerations different enumerators
    print differently. *)
Theorem to_string_reads_inside_its_table :
  (forall mode : rlc_mode, is_Some (to_string mode)) /\
  (forall dc : rlc_dc_field, is_Some (to_string dc)) /\
  (forall si : rlc_si_field, is_Some (to_string si)) /\
  (forall cpt : rlc_control_pdu_type, is_Some (to_string cpt)) /\
  (forall m1 m2 : rlc_mode, to_string m1 = to_string m2 -> m1 = m2) /\
  (forall d1 d2 : rlc_dc_field, to_string d1 = to_string d2 -> d1 = d2) /\
  (forall s1 s2 : rlc_si_field, to_string s1 = to_string s2 -> s1 = s2).
Proof.
  split_and!.
  - intros []; by eexists.
  - intros []; by eexists.
  - intros []; by eexists.
  - intros []; by eexists.
  - intros [] []; cbv; congruence.
  - intros [] []; cbv; congruence.
  - intros [] []; cbv; congruence.
Qed.

(** X17.  [to_number] of a segmentation-info field fits two bits and that of
    a D/C field one bit, and both tell the enumerators apart. *)
Theorem to_number_fits_its_field :
  (forall si : rlc_si_field, (0 <= to_number si < 4)%Z) /\
  (forall dc : rlc_dc_field, (0 <= to_number dc < 2)%Z) /\
  (forall s1 s2 : rlc_si_field, to_number s1 = to_number s2 -> s1 = s2) /\
  (forall d1 d2 : rlc_dc_field, to_number d1 = to_number d2 -> d1 = d2).
Proof.
  split_and!.
  - intros []; cbv; split; congruence.
  - intros []; cbv; split; congruence.
  - intros [] []; cbv; congruence.
  - intros [] []; cbv; congruence.
Qed.

(** * The further properties at work *)

Section coverage_examples.
#[local] Existing Instance example_constants.

Lemma registry_tables_keep_shape_witness :
  let s := state_after [create0] in
  length (ue_db s) = MAX_NOF_UES /\
  length (rnti_to_ue_index_map s) = MAX_NOF_UES /\
  (forall k v, rnti_to_ue_index_map s !! k = Some v -> v <= MAX_NOF_UES) /\
  (forall i, contains (ue_db s) i = true -> i < MAX_NOF_UES).
Proof.
  intros s. apply (registry_tables_keep_shape s). apply state_after_reachable.
Defined.

Lemma add_ue_returns_null_iff_witness :
  let s := state_after [create0] in
  exists s' r,
    add_ue s 1 71 0 = Ok (s', r) /\
    (r = None <->
       (exists v, rnti_to_ue_index_map s !! (71 mod MAX_NOF_UES) = Some v /\
                  v < MAX_NOF_UES) \/
       contains (ue_db s) 1 = true) /\
    (r = None -> s' = s) /\
    (r <> None -> r = Some 1).
Proof.
  intros s. apply (add_ue_returns_null_iff s 1 71 0).
  - apply state_after_reachable.
  - simpl. discriminate.
  - apply Nat.ltb_lt. vm_compute. reflexivity.
Defined.

Lemma ue_create_request_registers_witness :
  exists s',
    ue_create_request mac_ctrl_component_init
      {| create_ue_index := 0; create_crnti := 70; create_cell_index := 0 |} = Ok s' /\
    slot_get (ue_db s') 0 = Some ue0_created /\
    rnti_to_ue_index_map s' !! (70 mod MAX_NOF_UES) = Some 0 /\
    cfg_notifier s' = [].
Proof.
  destruct (ue_create_request_registers mac_ctrl_component_init
              {| create_ue_index := 0; create_crnti := 70; create_cell_index := 0 |})
    as (s' & Hreq & Hu & Hslot & Hnot & _).
  - apply reachable_init.
  - simpl. discriminate.
  - apply Nat.ltb_lt. vm_compute. reflexivity.
  - vm_compute. reflexivity.
  - vm_compute. reflexivity.
  - exists s'. split_and!; assumption.
Defined.

Lemma registered_ue_is_found_witness :
  let s := state_after [create0] in
  find_ue s 0 = Ok (Some (ue_ctx ue0_created)) /\
  find_by_rnti s 70 = Ok (Some (ue_ctx ue0_created)) /\
  du_ue_index (ue_ctx ue0_created) = 0 /\
  rnti (ue_ctx ue0_created) <> INVALID_RNTI.
Proof.
  intros s. apply (registered_ue_is_found s 0 ue0_created).
  - apply state_after_reachable.
  - vm_compute. reflexivity.
Defined.

Lemma registered_identifiers_are_distinct_witness :
  let s := state_after [create0] in
  slot_get (ue_db s) 0 = Some ue0_created /\ 0 = 0.
Proof.
  intros s.
  assert (Hu : slot_get (ue_db s) 0 = Some ue0_created) by (vm_compute; reflexivity).
  split; [exact Hu|].
  apply (registered_identifiers_are_distinct s 0 0 ue0_created ue0_created).
  - apply state_after_reachable.
  - exact Hu.
  - exact Hu.
  - reflexivity.
Defined.

Lemma step_keeps_ue_context_witness :
  let ev := ev_ue_delete_request {| delete_ue_index := 0; delete_rnti := 70 |} in
  let u' := {| ue_ctx := ue_ctx ue0_created;
               ctrl_loop := schedule (mac_ue_delete_procedure
                                        {| delete_ue_index := 0; delete_rnti := 70 |})
                              (ctrl_loop ue0_created) |} in
  ue_ctx u' = ue_ctx ue0_created.
Proof.
  intros ev u'.
  apply (step_keeps_ue_context (state_after [create0]) ev (state_after [create0; ev]) 0).
  - apply (state_after_step [create0] ev). vm_compute. reflexivity.
  - vm_compute. reflexivity.
  - vm_compute. reflexivity.
Defined.

Lemma reverse_index_slot_is_never_released_witness :
  let s := state_after [create0] in
  let s' := state_after [create0; ev_procedure_complete 0; ev_remove_ue 0] in
  rnti_to_ue_index_map s' !! 70 = Some 0 /\
  (forall ue_index crnti cell_index,
      crnti <> INVALID_RNTI -> ue_index < MAX_NOF_UES -> crnti mod MAX_NOF_UES = 70 ->
      add_ue s' ue_index crnti cell_index = Ok (s', None)).
Proof.
  intros s s'.
  apply (reverse_index_slot_is_never_released s [ev_procedure_complete 0; ev_remove_ue 0] s').
  - apply (state_after_run [create0] [ev_procedure_complete 0; ev_remove_ue 0]).
    vm_compute. reflexivity.
  - vm_compute. reflexivity.
  - apply Nat.ltb_lt. vm_compute. reflexivity.
Defined.

Lemma erased_ue_is_not_found_witness :
  let s' := state_after [create0; ev_procedure_complete 0; ev_remove_ue 0] in
  find_ue s' 0 = Ok None /\ find_by_rnti s' 70 = Ok None.
Proof.
  intros s'.
  apply (erased_ue_is_not_found (state_after [create0; ev_procedure_complete 0])
           (ev_remove_ue 0) s' 0 ue0_idle).
  - apply state_after_reachable.
  - apply (state_after_step [create0; ev_procedure_complete 0] (ev_remove_ue 0)).
    vm_compute. reflexivity.
  - vm_compute. reflexivity.
  - vm_compute. reflexivity.
Defined.

Lemma ue_delete_request_schedules_procedure_witness :
  let s := state_after [create0] in
  let msg := {| delete_ue_index := 0; delete_rnti := 70 |} in
  exists s' u',
    ue_delete_request s msg = Ok s' /\
    slot_get (ue_db s') 0 = Some u' /\
    tasks (ctrl_loop u') = tasks (ctrl_loop ue0_created) ++ [mac_ue_delete_procedure msg] /\
    cfg_notifier s' = cfg_notifier s.
Proof.
  intros s msg.
  destruct (ue_delete_request_schedules_procedure s msg ue0_created)
    as (s' & u' & Hreq & Hu' & _ & Hloop & _ & _ & _ & Hnot & _).
  - vm_compute. reflexivity.
  - exists s', u'. split_and!; try assumption. by rewrite Hloop.
Defined.

Lemma ue_reconfiguration_request_schedules_procedure_witness :
  let s := state_after [create0] in
  let msg := {| reconf_ue_index := 0; reconf_crnti := 70 |} in
  exists s' u',
    ue_reconfiguration_request s msg = Ok s' /\
    slot_get (ue_db s') 0 = Some u' /\
    tasks (ctrl_loop u') =
      tasks (ctrl_loop ue0_created) ++ [mac_ue_reconfiguration_procedure msg] /\
    cfg_notifier s' = cfg_notifier s.
Proof.
  intros s msg.
  destruct (ue_reconfiguration_request_schedules_procedure s msg ue0_created)
    as (s' & u' & Hreq & Hu' & _ & Hloop & _ & _ & _ & Hnot & _).
  - vm_compute. reflexivity.
  - exists s', u'. split_and!; try assumption. by rewrite Hloop.
Defined.


Lemma remove_ue_of_busy_ue_is_deferred_witness :
  let s := state_after [create0] in
  exists s',
    remove_ue s 0 = Ok s' /\
    ue_db s' = ue_db s /\
    0 ∈ tasks (main_ctrl_loop s') /\
    running (main_ctrl_loop s') <> None /\
    logger s' = logger s ++ [debug_scheduling_deletion 0] /\
    rnti_to_ue_index_map s' = rnti_to_ue_index_map s /\
    cfg_notifier s' = cfg_notifier s.
Proof.
  intros s. apply (remove_ue_of_busy_ue_is_deferred s 0 ue0_created).
  - apply state_after_reachable.
  - apply Nat.ltb_lt. vm_compute. reflexivity.
  - vm_compute. reflexivity.
  - reflexivity.
Defined.

Lemma run_notifies_failures_only_witness :
  let evs := [create0; ev_ue_delete_request {| delete_ue_index := 3; delete_rnti := 71 |}] in
  exists ns,
    cfg_notifier (state_after evs) = cfg_notifier mac_ctrl_component_init ++ ns /\
    length ns <= length evs /\
    Forall (fun n => notification_result n = false) ns.
Proof.
  intros evs. apply (run_notifies_failures_only mac_ctrl_component_init evs).
  apply (state_after_run [] evs). vm_compute. reflexivity.
Defined.

Lemma first_create_request_is_accepted_witness :
  let msg := {| create_ue_index := 5; create_crnti := 70; create_cell_index := 1 |} in
  let ctx := {| du_ue_index := 5; rnti := 70; pcell_idx := 1 |} in
  find_ue mac_ctrl_component_init 5 = Ok None /\
  find_by_rnti mac_ctrl_component_init 70 = Ok None /\
  exists s',
    ue_create_request mac_ctrl_component_init msg = Ok s' /\
    cfg_notifier s' = [] /\
    find_ue s' 5 = Ok (Some ctx) /\
    find_by_rnti s' 70 = Ok (Some ctx).
Proof.
  intros msg ctx. apply (first_create_request_is_accepted msg).
  - simpl. discriminate.
  - apply Nat.ltb_lt. vm_compute. reflexivity.
Defined.

End coverage_examples.
